(** * The incremental CSV parsing engine of omnidata ([CSVParser])

    A shallow embedding of the [CSVParser] class (the CSV loader of the
    package) and the properties of its character-level state machine:
    quote and escape handling, field and row assembly, header resolution,
    diagnostics, the one-shot [parse] entry point and the [parseStream]
    session.

    Conventions of the embedding.
    - A JavaScript string is a sequence of code units; the parser only ever
      compares code units for equality and concatenates them, so strings are
      [string] and a code unit is an [ascii].  The one-character string that
      [buffer[i]] yields is written [str1 c].
    - Counters ([currentLine], [currentColumn], [rowIndex], [bufferIndex])
      are natural numbers.
    - A name-keyed row (a JavaScript object created by the literal [{}]
      and filled by [row[k] = v]) is a [gmap string string] holding its own
      properties: a later assignment to the same key replaces the earlier
      one, and an assignment to the name [__proto__] creates no property
      (see [assignProperty]).
    - The optional callbacks of [CSVStreamOptions] are optional functions
      acting on the caller's world [W]; the [onHeaders] callback may also
      touch the parser, since the one that [parse] installs assigns
      [this.headers].  [onError] is only invoked from [catch] blocks and no
      operation of the engine throws, so it is never called and is left out.
    - The [while] loop of [processChunk] is a fuelled recursion started with
      [buffer.length] units of fuel; [processLoop_exit] shows that this fuel
      always reaches the exit of the loop. *)

From Stdlib Require Import Ascii.
From stdpp Require Import gmap strings list fin_maps.

(** ** Data model *)

(** [CSVError]. *)
Record CSVError := mkError {
  line : nat;
  column : nat;
  message : string
}.

(** The [headers] option: [boolean | string[]]. *)
Inductive HeadersOption :=
| HeadersBool (b : bool)
| HeadersList (names : list string).

(** [Required<CSVParseOptions>] as resolved by the constructor.  The
    [encoding] and [chunkSize] entries are never read by the class and are
    omitted.  The field [headersOption] is [options.headers]. *)
Record CSVParseOptions := mkOptions {
  delimiter : string;
  quote : string;
  escape : string;
  skipEmptyLines : bool;
  headersOption : HeadersOption
}.

(** The one-code-unit string [buffer[i]]. *)
Definition str1 (c : ascii) : string := String c EmptyString.

(** The code units the engine names: line feed, carriage return and the
    default quote character (the double quote). *)
Definition LF : ascii := "010"%char.
Definition CR : ascii := "013"%char.
Definition DQUOTE : ascii := "034"%char.

(** The constructor's defaults: [new CSVParser()]. *)
Definition defaultOptions : CSVParseOptions :=
  {| delimiter := ","; quote := str1 DQUOTE; escape := str1 DQUOTE;
     skipEmptyLines := true; headersOption := HeadersBool false |}.

(** An emitted row: [string[] | CSVRow]. *)
Inductive Row :=
| RowArray (fields : list string)
| RowObject (obj : gmap string string).

(** The mutable fields of a [CSVParser] instance.  The field
    [headers] is [this.headers] ([null] is [None]). *)
Record CSVParser := mkParser {
  buffer : string;
  currentLine : nat;
  currentColumn : nat;
  inQuotes : bool;
  currentField : string;
  currentRow : list string;
  headers : option (list string);
  errors : list CSVError;
  rowIndex : nat;
  bufferIndex : nat
}.

(** [CSVParseResult]; [headers: undefined] is [None]. *)
Record CSVParseResult := mkResult {
  result_headers : option (list string);
  rows : list Row;
  result_errors : list CSVError
}.

(** [CSVStreamOptions]: the callbacks, each optional. *)
Record CSVStreamOptions (W : Type) := mkStreamOptions {
  onRow : option (Row → nat → W → W);
  onHeaders : option (list string → CSVParser * W → CSVParser * W);
  onEnd : option (nat → list CSVError → W → W)
}.
Arguments mkStreamOptions {W} _ _ _.
Arguments onRow {W} _.
Arguments onHeaders {W} _.
Arguments onEnd {W} _.

(** ** Small helpers for JavaScript expressions *)

(** [x === s] for a one-code-unit string [x] and a string [s]. *)
Definition charIs (c : ascii) (s : string) : bool := bool_decide (str1 c = s).

(** [nextChar === s] where [nextChar] may be [undefined]. *)
Definition nextIs (next : option ascii) (s : string) : bool :=
  match next with
  | Some c => charIs c s
  | None => false
  end.

(** Truthiness of a string: non-empty. *)
Definition truthy (s : string) : bool :=
  match s with
  | EmptyString => false
  | String _ _ => true
  end.

(** [x || ""] where [x] is an array element, possibly [undefined]. *)
Definition orEmpty (x : option string) : string :=
  match x with
  | Some s => if truthy s then s else ""
  | None => ""
  end.

(** ** The methods of [CSVParser] *)

(** [reset()]: every mutable field is overwritten. *)
Definition reset (p : CSVParser) : CSVParser :=
  {| buffer := ""; currentLine := 1; currentColumn := 1; inQuotes := false;
     currentField := ""; currentRow := []; headers := None; errors := [];
     rowIndex := 0; bufferIndex := 0 |}.

(** The state of a freshly constructed instance (the field initialisers). *)
Definition newParser : CSVParser :=
  {| buffer := ""; currentLine := 1; currentColumn := 1; inQuotes := false;
     currentField := ""; currentRow := []; headers := None; errors := [];
     rowIndex := 0; bufferIndex := 0 |}.

(** [addError(message)]. *)
Definition addError (msg : string) (p : CSVParser) : CSVParser :=
  {| buffer := buffer p; currentLine := currentLine p;
     currentColumn := currentColumn p; inQuotes := inQuotes p;
     currentField := currentField p; currentRow := currentRow p;
     headers := headers p;
     errors := errors p ++ [mkError (currentLine p) (currentColumn p) msg];
     rowIndex := rowIndex p; bufferIndex := bufferIndex p |}.

(** [resetRow()]. *)
Definition resetRow (p : CSVParser) : CSVParser :=
  {| buffer := buffer p; currentLine := S (currentLine p);
     currentColumn := 1; inQuotes := inQuotes p;
     currentField := ""; currentRow := [];
     headers := headers p; errors := errors p;
     rowIndex := rowIndex p; bufferIndex := bufferIndex p |}.

(** Field updates used by [processCharacter] and [endRow]. *)
Definition setField (f : string) (col : nat) (p : CSVParser) : CSVParser :=
  {| buffer := buffer p; currentLine := currentLine p;
     currentColumn := col; inQuotes := inQuotes p;
     currentField := f; currentRow := currentRow p;
     headers := headers p; errors := errors p;
     rowIndex := rowIndex p; bufferIndex := bufferIndex p |}.

Definition setInQuotes (q : bool) (col : nat) (p : CSVParser) : CSVParser :=
  {| buffer := buffer p; currentLine := currentLine p;
     currentColumn := col; inQuotes := q;
     currentField := currentField p; currentRow := currentRow p;
     headers := headers p; errors := errors p;
     rowIndex := rowIndex p; bufferIndex := bufferIndex p |}.

Definition setBufferIndex (i : nat) (p : CSVParser) : CSVParser :=
  {| buffer := buffer p; currentLine := currentLine p;
     currentColumn := currentColumn p; inQuotes := inQuotes p;
     currentField := currentField p; currentRow := currentRow p;
     headers := headers p; errors := errors p;
     rowIndex := rowIndex p; bufferIndex := i |}.

Definition setBuffer (b : string) (p : CSVParser) : CSVParser :=
  {| buffer := b; currentLine := currentLine p;
     currentColumn := currentColumn p; inQuotes := inQuotes p;
     currentField := currentField p; currentRow := currentRow p;
     headers := headers p; errors := errors p;
     rowIndex := rowIndex p; bufferIndex := bufferIndex p |}.

Definition setHeaders (h : option (list string)) (p : CSVParser) : CSVParser :=
  {| buffer := buffer p; currentLine := currentLine p;
     currentColumn := currentColumn p; inQuotes := inQuotes p;
     currentField := currentField p; currentRow := currentRow p;
     headers := h; errors := errors p;
     rowIndex := rowIndex p; bufferIndex := bufferIndex p |}.

Definition setRowIndex (i : nat) (p : CSVParser) : CSVParser :=
  {| buffer := buffer p; currentLine := currentLine p;
     currentColumn := currentColumn p; inQuotes := inQuotes p;
     currentField := currentField p; currentRow := currentRow p;
     headers := headers p; errors := errors p;
     rowIndex := i; bufferIndex := bufferIndex p |}.

(** [this.currentRow.push(this.currentField)] followed, in the delimiter
    branch, by clearing the field and advancing the column. *)
Definition pushField (p : CSVParser) : CSVParser :=
  {| buffer := buffer p; currentLine := currentLine p;
     currentColumn := currentColumn p; inQuotes := inQuotes p;
     currentField := currentField p;
     currentRow := currentRow p ++ [currentField p];
     headers := headers p; errors := errors p;
     rowIndex := rowIndex p; bufferIndex := bufferIndex p |}.

(** The property name that plain objects inherit as an accessor. *)
Definition PROTO : string := "__proto__".

(** [row[k] = v] on an object created by the literal [{}], for a string [v].
    Every name but one becomes, or updates, an own property.  The name
    [__proto__] is an accessor inherited from [Object.prototype]: the
    assignment calls its setter, which ignores a value that is neither an
    object nor null, so the row is left as it was. *)
Definition assignProperty (k v : string) (row : gmap string string)
  : gmap string string :=
  if bool_decide (k = PROTO) then row else <[k := v]> row.

(** The loop that builds a name-keyed row:
    [for (i = 0; i < headers.length; i++) row[headers[i]] = currentRow[i] || ""]. *)
Definition toObject (hs : list string) (cr : list string) : gmap string string :=
  foldl (λ row i,
           match hs !! i with
           | Some k => assignProperty k (orEmpty (cr !! i)) row
           | None => row
           end)
        ∅ (seq 0 (length hs)).

(** [if (this.headers) { row = {...} } else { row = [...this.currentRow] }]. *)
Definition makeRow (p : CSVParser) : Row :=
  match headers p with
  | Some hs => RowObject (toObject hs (currentRow p))
  | None => RowArray (currentRow p)
  end.

Section Methods.
Context {W : Type}.
Variable options : CSVParseOptions.
Variable streamOptions : CSVStreamOptions W.

(** [if (streamOptions?.onHeaders) streamOptions.onHeaders(this.headers)],
    where [hs] is the value just assigned to [this.headers]. *)
Definition callOnHeaders (hs : list string) (pw : CSVParser * W) : CSVParser * W :=
  match onHeaders streamOptions with
  | Some f => f hs pw
  | None => pw
  end.

(** The block shared by the two data-row branches of [endRow]: build the
    row, hand it to [onRow] with the current [rowIndex], then increment
    [rowIndex]. *)
Definition emitRow (pw : CSVParser * W) : CSVParser * W :=
  let '(p, w) := pw in
  let row := makeRow p in
  let w' := match onRow streamOptions with
            | Some f => f row (rowIndex p) w
            | None => w
            end in
  (setRowIndex (S (rowIndex p)) p, w').

(** [endRow(streamOptions)]. *)
Definition endRow (pw : CSVParser * W) : CSVParser * W :=
  let '(p0, w) := pw in
  let p := pushField p0 in
  if skipEmptyLines options
     && (length (currentRow p) =? 1)
     && bool_decide (currentRow p !! 0 = Some EmptyString)
  then (resetRow p, w)
  else
    let pw' :=
      match headersOption options, headers p with
      | HeadersBool true, None =>
          callOnHeaders (currentRow p) (setHeaders (Some (currentRow p)) p, w)
      | HeadersList names, None =>
          emitRow (callOnHeaders names (setHeaders (Some names) p, w))
      | _, _ => emitRow (p, w)
      end in
    (resetRow (fst pw'), snd pw').

(** [processCharacter(char, streamOptions)]; [char] is
    [buffer[bufferIndex]]. *)
Definition processCharacter (char : ascii) (pw : CSVParser * W) : CSVParser * W :=
  let '(p, w) := pw in
  let append :=
    (setField (currentField p +:+ str1 char) (S (currentColumn p)) p, w) in
  if inQuotes p then
    if charIs char (escape options)
       && nextIs (String.get (S (bufferIndex p)) (buffer p)) (quote options)
    then
      (setBufferIndex (S (bufferIndex p))
         (setField (currentField p +:+ quote options) (currentColumn p + 2) p), w)
    else if charIs char (quote options) then
      (setInQuotes false (S (currentColumn p)) p, w)
    else append
  else
    if charIs char (quote options) then
      if 0 <? String.length (currentField p) then
        let p1 := addError "Unexpected quote character" p in
        (setField (currentField p1 +:+ str1 char) (S (currentColumn p1)) p1, w)
      else (setInQuotes true (S (currentColumn p)) p, w)
    else if charIs char (delimiter options) then
      (setField EmptyString (S (currentColumn p)) (pushField p), w)
    else if bool_decide (char = LF) || bool_decide (char = CR) then
      let p1 :=
        if bool_decide (char = CR)
           && nextIs (String.get (S (bufferIndex p)) (buffer p)) (str1 LF)
        then setBufferIndex (S (bufferIndex p)) p
        else p in
      endRow (p1, w)
    else append.

(** The [while] loop of [processChunk]: one iteration reads
    [buffer[bufferIndex]], processes it and increments [bufferIndex]. *)
Fixpoint processLoop (fuel : nat) (pw : CSVParser * W) : CSVParser * W :=
  match fuel with
  | 0 => pw
  | S fuel' =>
      if bufferIndex (fst pw) <? String.length (buffer (fst pw)) then
        match String.get (bufferIndex (fst pw)) (buffer (fst pw)) with
        | Some char =>
            let '(p1, w1) := processCharacter char pw in
            processLoop fuel' (setBufferIndex (S (bufferIndex p1)) p1, w1)
        | None => pw
        end
      else pw
  end.

(** [processChunk(chunk, streamOptions)]. *)
Definition processChunk (chunk : string) (pw : CSVParser * W) : CSVParser * W :=
  let '(p, w) := pw in
  let p1 := setBufferIndex 0 (setBuffer (buffer p +:+ chunk) p) in
  let '(p2, w2) := processLoop (String.length (buffer p1)) (p1, w) in
  (setBufferIndex 0 (setBuffer EmptyString p2), w2).

(** [finalize(streamOptions)]. *)
Definition finalize (pw : CSVParser * W) : CSVParser * W :=
  let '(p1, w1) :=
    if truthy (currentField (fst pw)) || (0 <? length (currentRow (fst pw)))
    then endRow pw else pw in
  let p2 := if inQuotes p1 then addError "Unclosed quoted field" p1 else p1 in
  let w2 := match onEnd streamOptions with
            | Some f => f (rowIndex p2) (errors p2) w1
            | None => w1
            end in
  (p2, w2).

(** The session object returned by [parseStream]: [write] and [end].
    Neither can throw, so the [catch] blocks are dead. *)
Definition write (chunk : string) (pw : CSVParser * W) : CSVParser * W :=
  processChunk chunk pw.

Definition end_ (pw : CSVParser * W) : CSVParser * W :=
  finalize pw.

(** [parseStream(streamOptions)] resets the instance; a session is then
    driven by any number of [write] calls and one [end]. *)
Definition parseStream (pw : CSVParser * W) : CSVParser * W :=
  (reset (fst pw), snd pw).

Definition runSession (chunks : list string) (pw : CSVParser * W) : CSVParser * W :=
  end_ (foldl (λ acc chunk, write chunk acc) (parseStream pw) chunks).
End Methods.

(** The callbacks that [parse] installs: [onRow] pushes onto the local
    [rows] array, [onHeaders] assigns [this.headers]; there is no [onEnd]. *)
Definition parseCallbacks : CSVStreamOptions (list Row) :=
  {| onRow := Some (λ row _ rows, rows ++ [row]);
     onHeaders := Some (λ hs pw, (setHeaders (Some hs) (fst pw), snd pw));
     onEnd := None |}.

(** [parse(input)], on an instance in state [p]: the result and the state
    the instance is left in. *)
Definition parse (options : CSVParseOptions) (input : string) (p : CSVParser)
  : CSVParseResult * CSVParser :=
  let p0 := reset p in
  let pw1 := processChunk options parseCallbacks input (p0, []) in
  let '(p2, rows2) := finalize options parseCallbacks pw1 in
  ({| result_headers := headers p2; rows := rows2; result_errors := errors p2 |}, p2).

(** [createCSVParser(options).parse(input)]. *)
Definition parseFresh (options : CSVParseOptions) (input : string) : CSVParseResult :=
  fst (parse options input newParser).

(** ** The constructor and the unified API, on a string input

    [parseCSV], [parseCSVSimple] and [parseCSVStream] take a string, a
    [File] or a path; a string is always parsed as CSV text, by the first
    branch of [parseCSV].  That branch is embedded here; the [File] and path
    branches go through the host's file APIs and are left out. *)

(** [CSVParseOptions] as a caller writes it: every entry optional
    ([undefined] is [None]). *)
Record CSVParseOptionsGiven := mkOptionsGiven {
  delimiterGiven : option string;
  quoteGiven : option string;
  escapeGiven : option string;
  skipEmptyLinesGiven : option bool;
  headersGiven : option HeadersOption
}.

(** The default parameter [{}]. *)
Definition noOptions : CSVParseOptionsGiven :=
  {| delimiterGiven := None; quoteGiven := None; escapeGiven := None;
     skipEmptyLinesGiven := None; headersGiven := None |}.

(** [constructor(options)]: [x ?? d] keeps every value that is not
    [undefined], the empty string and [false] included. *)
Definition CSVParser_constructor (o : CSVParseOptionsGiven) : CSVParseOptions :=
  {| delimiter := default "," (delimiterGiven o);
     quote := default (str1 DQUOTE) (quoteGiven o);
     escape := default (str1 DQUOTE) (escapeGiven o);
     skipEmptyLines := default true (skipEmptyLinesGiven o);
     headersOption := default (HeadersBool false) (headersGiven o) |}.

(** The options of [parseCSV]: the parse options, [stream], and the
    callbacks.  [onError] is never called by the engine; only its presence
    matters, to the choice of the mode. *)
Record ParseCSVOptions (W : Type) := mkParseCSVOptions {
  parseOptions : CSVParseOptionsGiven;
  stream : option bool;
  callbacks : CSVStreamOptions W;
  onErrorGiven : bool
}.
Arguments mkParseCSVOptions {W} _ _ _ _.
Arguments parseOptions {W} _.
Arguments stream {W} _.
Arguments callbacks {W} _.
Arguments onErrorGiven {W} _.

(** No callback at all. *)
Definition noCallbacks {W : Type} : CSVStreamOptions W :=
  {| onRow := None; onHeaders := None; onEnd := None |}.

(** [stream === true || onRow || onHeaders || onError || onEnd]. *)
Definition useStreaming {W} (o : ParseCSVOptions W) : bool :=
  bool_decide (stream o = Some true)
  || bool_decide (is_Some (onRow (callbacks o)))
  || bool_decide (is_Some (onHeaders (callbacks o)))
  || onErrorGiven o
  || bool_decide (is_Some (onEnd (callbacks o))).

(** [parseCSV(input, options)] for [typeof input === "string"]: in
    streaming mode one [write] of the whole text, then [end], and no return
    value; otherwise the result of [parse]. *)
Definition parseCSV {W} (input : string) (o : ParseCSVOptions W) (w : W)
  : option CSVParseResult * W :=
  if useStreaming o then
    let options := CSVParser_constructor (parseOptions o) in
    let streamParser := parseStream (newParser, w) in
    let pw1 := write options (callbacks o) input streamParser in
    let pw2 := end_ options (callbacks o) pw1 in
    (None, snd pw2)
  else
    (Some (fst (parse (CSVParser_constructor (parseOptions o)) input newParser)), w).


(** [parseCSVStream(input, callbacks, options)] on a string:
    [parseCSV(input, { ...options, stream: true, ...callbacks })]. *)
Definition parseCSVStream {W} (input : string) (cb : CSVStreamOptions W)
    (onErrorArg : bool) (options : CSVParseOptionsGiven) (w : W) : W :=
  snd (parseCSV input
         {| parseOptions := options; stream := Some true; callbacks := cb;
            onErrorGiven := onErrorArg |} w).

(** * Vocabulary of the statements

    Nothing below is part of the parser: these are the options, callers,
    observations and relations the properties are stated with. *)

(** ** Options and callers *)

(** The one-character strings holding the double quote and the line feed. *)
Definition Q : string := str1 DQUOTE.
Definition NL : string := str1 LF.

(** [options] with another [headers] entry, another [skipEmptyLines]. *)
Definition withHeaders (h : HeadersOption) (o : CSVParseOptions) : CSVParseOptions :=
  {| delimiter := delimiter o; quote := quote o; escape := escape o;
     skipEmptyLines := skipEmptyLines o; headersOption := h |}.

Definition withSkipEmptyLines (b : bool) (o : CSVParseOptions) : CSVParseOptions :=
  {| delimiter := delimiter o; quote := quote o; escape := escape o;
     skipEmptyLines := b; headersOption := headersOption o |}.

(** Callbacks of a caller that records every notification, in order. *)
Inductive Notification :=
| RowNotified (row : Row) (index : nat)
| HeadersNotified (hs : list string)
| EndNotified (totalRows : nat) (errs : list CSVError).

Definition recordingCallbacks : CSVStreamOptions (list Notification) :=
  {| onRow := Some (λ row i log, log ++ [RowNotified row i]);
     onHeaders := Some (λ hs pw, (fst pw, snd pw ++ [HeadersNotified hs]));
     onEnd := Some (λ n errs log, log ++ [EndNotified n errs]) |}.

(** A streaming session on a fresh instance, fed [chunks], observed by the
    recording caller. *)
Definition streamFresh (options : CSVParseOptions) (chunks : list string)
  : list Notification :=
  snd (runSession options recordingCallbacks chunks (newParser, [])).

(** What the recording caller was told: the rows with the index passed to
    [onRow], the headers, the end notifications. *)
Definition notifiedRows (log : list Notification) : list (Row * nat) :=
  omap (λ n, match n with RowNotified r i => Some (r, i) | _ => None end) log.

Definition notifiedHeaders (log : list Notification) : list (list string) :=
  omap (λ n, match n with HeadersNotified hs => Some hs | _ => None end) log.

Definition notifiedEnds (log : list Notification) : list (nat * list CSVError) :=
  omap (λ n, match n with EndNotified k errs => Some (k, errs) | _ => None end) log.

(** The rows with their positions, as [onRow] receives them. *)
Definition numbered (rs : list Row) : list (Row * nat) := imap (λ i r, (r, i)) rs.

(** An [onHeaders] callback is well behaved when it leaves the parser
    alone: called, as it always is, with the value [this.headers] holds, it
    returns the parser unchanged and its effect on the caller's world does
    not depend on the parser. *)
Definition wellBehaved {W : Type} (so : CSVStreamOptions W) : Prop :=
  ∀ f, onHeaders so = Some f →
    ∃ g, ∀ hs p w, headers p = Some hs → f hs (p, w) = (p, g hs w).

(** What the [onRow] callback, if any, does to the caller's world. *)
Definition notifyRow {W} (so : CSVStreamOptions W) (row : Row) (i : nat) (w : W) : W :=
  match onRow so with
  | Some f => f row i w
  | None => w
  end.

(** ** Row boundaries and the end of input *)

(** A completed row survives unless it is an empty line and empty lines are
    skipped. *)
Definition survives (options : CSVParseOptions) (row : list string) : Prop :=
  skipEmptyLines options = false ∨ row ≠ [EmptyString].

(** Whether [finalize] has something to flush:
    [this.currentField || this.currentRow.length > 0]. *)
Definition pending (p : CSVParser) : bool :=
  truthy (currentField p) || (0 <? length (currentRow p)).

(** What [finalize] does once the pending row, if any, is flushed. *)
Definition afterFlush {W} (so : CSVStreamOptions W) (pw : CSVParser * W)
  : CSVParser * W :=
  let p2 := if inQuotes (fst pw)
            then addError "Unclosed quoted field" (fst pw) else fst pw in
  (p2, match onEnd so with
       | Some f => f (rowIndex p2) (errors p2) (snd pw)
       | None => snd pw
       end).

(** The object after the first [n] iterations of the conversion loop. *)
Definition objectUpTo (hs cr : list string) (n : nat) : gmap string string :=
  foldl (λ row i,
           match hs !! i with
           | Some k => assignProperty k (orEmpty (cr !! i)) row
           | None => row
           end)
        ∅ (seq 0 n).

(** ** Header resolution seen from the rows that survive

    [headerView h raw] is the header, the emitted rows and the row count
    that the [headers] option [h] makes of the surviving rows [raw]. *)

Definition headerView (h : HeadersOption) (raw : list (list string))
  : option (list string) * list Row * nat :=
  match h with
  | HeadersBool false => (None, RowArray <$> raw, length raw)
  | HeadersBool true =>
      match raw with
      | [] => (None, [], 0)
      | first :: rest =>
          (Some first, (λ r, RowObject (toObject first r)) <$> rest, length rest)
      end
  | HeadersList names =>
      match raw with
      | [] => (None, [], 0)
      | _ :: _ =>
          (Some names, (λ r, RowObject (toObject names r)) <$> raw, length raw)
      end
  end.

(** The state of a parse under option [h] is the state of the parse under
    [headers: false] with the header and the row index replaced. *)
Definition viewRel (h : HeadersOption) (A B : CSVParser * list Row) : Prop :=
  ∃ raw : list (list string),
    snd A = RowArray <$> raw
    ∧ headers (fst A) = None
    ∧ rowIndex (fst A) = length raw
    ∧ B = (setHeaders (headerView h raw).1.1
             (setRowIndex (headerView h raw).2 (fst A)),
           (headerView h raw).1.2).

(** The same instance driven with the callbacks of [parse] and with the
    recording callbacks. *)
Definition logRel (A : CSVParser * list Row) (B : CSVParser * list Notification)
  : Prop :=
  fst B = fst A
  ∧ notifiedRows (snd B) = numbered (snd A)
  ∧ rowIndex (fst A) = length (snd A)
  ∧ notifiedHeaders (snd B) = option_list (headers (fst A))
  ∧ notifiedEnds (snd B) = [].

(** ** The buffer and the chunks *)

(** [rebase b i p] is [p] with another buffer and index. *)
Definition rebase (b : string) (i : nat) (p : CSVParser) : CSVParser :=
  setBufferIndex i (setBuffer b p).

(** The two lookahead tests of [processCharacter], as functions of the
    character after the current one. *)
Definition escapeLookahead (options : CSVParseOptions) (c : ascii)
    (next : option ascii) : bool :=
  charIs c (escape options) && nextIs next (quote options).

Definition crlfLookahead (c : ascii) (next : option ascii) : bool :=
  bool_decide (c = CR) && nextIs next (str1 LF).

(** The loop, run to its exit. *)
Definition run {W} (options : CSVParseOptions) (so : CSVStreamOptions W)
    (pw : CSVParser * W) : CSVParser * W :=
  processLoop options so
    (String.length (buffer (fst pw)) - bufferIndex (fst pw)) pw.

(** A boundary between the text [b1] written so far and the next chunk [b2]
    is safe when it does not separate an escape character from a quote
    character, nor a carriage return from a line feed. *)
Definition safeBoundary (options : CSVParseOptions) (b1 b2 : string) : bool :=
  match String.get (String.length b1 - 1) b1, String.get 0 b2 with
  | Some l, Some f =>
      negb (charIs l (escape options) && charIs f (quote options))
      && negb (bool_decide (l = CR) && charIs f (str1 LF))
  | _, _ => true
  end.

(** Every boundary of a sequence of chunks is safe, [written] being the text
    written before them. *)
Fixpoint safeChunks (options : CSVParseOptions) (written : string)
    (chunks : list string) : bool :=
  match chunks with
  | [] => true
  | c :: cs =>
      safeBoundary options written c && safeChunks options (written +:+ c) cs
  end.

(** The chunks joined in order. *)
Definition joined (chunks : list string) : string :=
  foldr String.append EmptyString chunks.

(** ** Inputs and states of the examples *)

(** A quoted field with two doubled quotes, then a second field. *)
Definition escapedQuoteInput : string :=
  Q +:+ "He said " +:+ Q +:+ Q +:+ "hi" +:+ Q +:+ Q +:+ Q +:+ ",2".

(** The state in the middle of [escapedQuoteInput], at the first doubled
    quote. *)
Definition atDoubledQuote : CSVParser :=
  {| buffer := escapedQuoteInput; currentLine := 1; currentColumn := 10;
     inQuotes := true; currentField := "He said "; currentRow := [];
     headers := None; errors := []; rowIndex := 0; bufferIndex := 9 |}.

(** A quote in the middle of an unquoted field. *)
Definition unexpectedQuoteInput : string := "ab" +:+ Q +:+ "c,d".

(** The state of the parser on [unexpectedQuoteInput] when it reaches the
    quote: outside quoted mode, with content in the current field. *)
Definition afterAB : CSVParser :=
  {| buffer := unexpectedQuoteInput; currentLine := 1; currentColumn := 3;
     inQuotes := false; currentField := "ab"; currentRow := [];
     headers := None; errors := []; rowIndex := 0; bufferIndex := 2 |}.

(** Two rows separated by a blank line. *)
Definition emptyLineInput : string := "a,b" +:+ NL +:+ NL +:+ "c,d".

(** The state at the end of the input made of a quote followed by abc:
    inside the quoted field. *)
Definition insideQuotedABC : CSVParser :=
  {| buffer := EmptyString; currentLine := 1; currentColumn := 5;
     inQuotes := true; currentField := "abc"; currentRow := [];
     headers := None; errors := []; rowIndex := 0; bufferIndex := 0 |}.

(** A header line and one data line. *)
Definition firstRowInput : string := "a,b,c" +:+ NL +:+ "1,2,3".

(** Two rows, the second without a final newline; and a final row whose
    last field is an empty quoted field. *)
Definition trailingRowInput : string := "a,b" +:+ NL +:+ "c,d".
Definition trailingEmptyQuotedInput : string := "a," +:+ Q +:+ Q.

(** A quoted field with one doubled quote in it. *)
Definition doubledQuoteInput : string := Q +:+ "a" +:+ Q +:+ Q +:+ "b" +:+ Q.

(** ** Positions, diagnostics and progress *)

(** The diagnostic [e] lies before the position ([ln], [col]). *)
Definition before (e : CSVError) (ln col : nat) : Prop :=
  line e < ln ∨ (line e = ln ∧ column e < col).

(** The diagnostics come in strictly increasing position. *)
Definition increasing (errs : list CSVError) : Prop :=
  ∀ i j e1 e2, i < j → errs !! i = Some e1 → errs !! j = Some e2 →
    before e1 (line e2) (column e2).

(** The diagnostics collected while characters are processed: positions
    are 1-based, every diagnostic is an unexpected quote lying before the
    current position, and they come in increasing position. *)
Definition diagnosticsOK (p : CSVParser) : Prop :=
  1 ≤ currentLine p ∧ 1 ≤ currentColumn p
  ∧ Forall (λ e, message e = "Unexpected quote character"
                 ∧ 1 ≤ line e ∧ 1 ≤ column e
                 ∧ before e (currentLine p) (currentColumn p)) (errors p)
  ∧ increasing (errors p).

(** From [p] to [p']: the diagnostics of [p] are still there, in front; the
    row index and the line did not go back; a resolved header stayed. *)
Definition grows (p p' : CSVParser) : Prop :=
  errors p `prefix_of` errors p'
  ∧ rowIndex p ≤ rowIndex p'
  ∧ currentLine p ≤ currentLine p'
  ∧ (∀ hs, headers p = Some hs → headers p' = Some hs).

(** No character of [s] is the quote character. *)
Definition quoteFree (options : CSVParseOptions) (s : string) : Prop :=
  ∀ i c, String.get i s = Some c → charIs c (quote options) = false.

(** What the recording caller has been told once the header [hdr], if any,
    and the rows [rs] have been notified: the header first, then the rows
    with their positions. *)
Definition told (hdr : option (list string)) (rs : list Row) : list Notification :=
  (HeadersNotified <$> option_list hdr) ++ imap (λ i r, RowNotified r i) rs.

(** The log of the recording caller, in step with the parser. *)
Definition logInv (options : CSVParseOptions)
    (pw : CSVParser * list Notification) : Prop :=
  ∃ rs, snd pw = told (headers (fst pw)) rs
        ∧ rowIndex (fst pw) = length rs
        ∧ (headers (fst pw) = None →
           headersOption options = HeadersBool false ∨ rs = []).

(** ** Rendering a table as text

    The engine has no writer; these functions render a table the usual way,
    to state what the parser reads back. *)

(** The loop of [processChunk] as a scan of the text left to read: the
    character at the head is processed with the rest as lookahead, and
    [skip] says that the character at the head was consumed with the one
    before. *)
Fixpoint scan {W} (options : CSVParseOptions) (so : CSVStreamOptions W)
    (skip : bool) (cs : string) (pw : CSVParser * W) : CSVParser * W :=
  match cs with
  | EmptyString => pw
  | String c rest =>
      if skip then scan options so false rest pw
      else
        let r := processCharacter options so c (rebase cs 0 (fst pw), snd pw) in
        scan options so (bufferIndex (fst r) =? 1) rest
          (rebase EmptyString 0 (fst r), snd r)
  end.

(** A character that stands for itself outside quotes: neither the quote,
    nor the delimiter, nor a line terminator. *)
Definition plainChar (options : CSVParseOptions) (c : ascii) : bool :=
  negb (charIs c (quote options)) && negb (charIs c (delimiter options))
  && negb (bool_decide (c = LF)) && negb (bool_decide (c = CR)).

Fixpoint plainText (options : CSVParseOptions) (s : string) : bool :=
  match s with
  | EmptyString => true
  | String c s' => plainChar options c && plainText options s'
  end.

(** The text with every quote character doubled. *)
Fixpoint doubled (q : ascii) (s : string) : string :=
  match s with
  | EmptyString => EmptyString
  | String c s' =>
      if bool_decide (c = q) then String q (String q (doubled q s'))
      else String c (doubled q s')
  end.

(** A field as written: as it is, or between quotes with its quotes
    doubled. *)
Inductive Cell :=
| Plain (text : string)
| Quoted (text : string).

Definition cellText (c : Cell) : string :=
  match c with Plain t | Quoted t => t end.

Definition renderCell (q : ascii) (c : Cell) : string :=
  match c with
  | Plain t => t
  | Quoted t => String q (doubled q t +:+ str1 q)
  end.

(** A plain cell holds plain characters only; a quoted cell holds
    anything. *)
Definition cellOK (options : CSVParseOptions) (c : Cell) : bool :=
  match c with
  | Plain t => plainText options t
  | Quoted _ => true
  end.

(** The cells of a row, separated by the delimiter. *)
Fixpoint renderRow (q d : ascii) (cells : list Cell) : string :=
  match cells with
  | [] => EmptyString
  | [c] => renderCell q c
  | c :: cs => renderCell q c +:+ String d (renderRow q d cs)
  end.

(** The three line endings the engine accepts. *)
Inductive LineEnding := EndLF | EndCRLF | EndCR.

Definition renderEnding (e : LineEnding) : string :=
  match e with
  | EndLF => str1 LF
  | EndCRLF => String CR (str1 LF)
  | EndCR => str1 CR
  end.

(** The rows, each followed by the line ending. *)
Fixpoint renderTable (q d : ascii) (e : LineEnding) (table : list (list Cell))
  : string :=
  match table with
  | [] => EmptyString
  | r :: rest => renderRow q d r +:+ renderEnding e +:+ renderTable q d e rest
  end.

(** The first character of [s] is [c]. *)
Definition startsWith (c : ascii) (s : string) : bool :=
  match s with
  | String c' _ => bool_decide (c' = c)
  | EmptyString => false
  end.

(** A configuration with one-character delimiter [d] and quote [q], the
    quote being its own escape, and the four special characters distinct. *)
Definition standard (options : CSVParseOptions) (q d : ascii) : Prop :=
  quote options = str1 q ∧ escape options = str1 q
  ∧ delimiter options = str1 d
  ∧ q ≠ d ∧ q ≠ LF ∧ q ≠ CR ∧ d ≠ LF ∧ d ≠ CR.

(** The parser state between two calls of [processChunk], field by field. *)
Definition between (ln col : nat) (q : bool) (fld : string) (row : list string)
    (hd : option (list string)) (errs : list CSVError) (ri : nat) : CSVParser :=
  {| buffer := EmptyString; currentLine := ln; currentColumn := col;
     inQuotes := q; currentField := fld; currentRow := row; headers := hd;
     errors := errs; rowIndex := ri; bufferIndex := 0 |}.

(** A row as written: at least one cell, every plain cell free of special
    characters, and the row not an empty line that the options skip. *)
Definition rowOK (options : CSVParseOptions) (r : list Cell) : Prop :=
  r ≠ [] ∧ Forall (λ c, cellOK options c = true) r
  ∧ survives options (cellText <$> r).

(** The fields of a table, as the strings the cells stand for. *)
Definition fieldsOf (table : list (list Cell)) : list (list string) :=
  (λ r : list Cell, cellText <$> r) <$> table.

(** A table used as an example: a header line, a row with a quoted field
    that holds the quote and the delimiter, a row that starts with an empty
    field. *)
Definition sampleTable : list (list Cell) :=
  [[Plain "name"; Quoted "note"];
   [Plain "Ann"; Quoted (String DQUOTE "x,y")];
   [Plain ""; Plain "z"]].

(** ** The shape of a result *)

(** The header names that a row can hold as own properties: all but
    [__proto__]. *)
Definition ownNames (hs : list string) : list string :=
  filter (λ k, k ≠ PROTO) hs.

(** The fields of an emitted row: at least one, and not the lone empty
    field when empty lines are skipped. *)
Definition properFields (options : CSVParseOptions) (fields : list string) : Prop :=
  fields ≠ [] ∧ (skipEmptyLines options = true → fields ≠ [EmptyString]).

(** The invariant of a parse without header: no header is set and every
    row collected so far is an array of proper fields. *)
Definition properState (options : CSVParseOptions) (pw : CSVParser * list Row)
  : Prop :=
  headers (fst pw) = None
  ∧ ∃ raw, snd pw = RowArray <$> raw ∧ Forall (properFields options) raw.


(** ** Empty lines *)

(** The rows that are not an empty line. *)
Definition keep (raw : list (list string)) : list (list string) :=
  filter (λ r, r ≠ [EmptyString]) raw.

(** The state of a parse that skips empty lines is the state of the parse
    that keeps them, with the empty lines taken out of the rows and of the
    row index. *)
Definition skipRel (A B : CSVParser * list Row) : Prop :=
  ∃ raw : list (list string),
    snd A = RowArray <$> raw
    ∧ headers (fst A) = None
    ∧ rowIndex (fst A) = length raw
    ∧ B = (setRowIndex (length (keep raw)) (fst A), RowArray <$> keep raw).

(** Equality of two parser states built by the field updates, up to
    arithmetic on the counters. *)
Ltac record_eq :=
  unfold rebase, setBufferIndex, setBuffer, setField, setInQuotes,
    setHeaders, setRowIndex, addError, pushField, resetRow;
  cbn -[Nat.sub Nat.add]; repeat f_equal; lia.

(** * Properties *)

Lemma parseCallbacks_wellBehaved : wellBehaved parseCallbacks.
Proof.
  intros f Hf. injection Hf as <-. exists (λ _ w, w).
  intros hs [] w Hh. simpl in *. by rewrite Hh.
Qed.

Lemma recordingCallbacks_wellBehaved : wellBehaved recordingCallbacks.
Proof.
  intros f Hf. injection Hf as <-. exists (λ hs w, w ++ [HeadersNotified hs]).
  by intros hs p w _.
Qed.

Lemma charIs_true c s : charIs c s = true ↔ str1 c = s.
Proof. unfold charIs. apply bool_decide_eq_true. Qed.

Lemma charIs_false c s : charIs c s = false ↔ str1 c ≠ s.
Proof. unfold charIs. apply bool_decide_eq_false. Qed.

Lemma truthy_true s : truthy s = true ↔ s ≠ EmptyString.
Proof. destruct s; simpl; split; congruence. Qed.

Lemma length_pos_truthy s : (0 <? String.length s) = truthy s.
Proof. by destruct s. Qed.

Lemma orEmpty_default (x : option string) : orEmpty x = default EmptyString x.
Proof. destruct x as [[|]|]; reflexivity. Qed.

(** ** Strings and the loop *)

Lemma get_Some_lt (s : string) (n : nat) (c : ascii) :
  String.get n s = Some c → n < String.length s.
Proof.
  revert n. induction s as [|a s IH]; intros [|n]; simpl; try done; try lia.
  intros H. apply IH in H. lia.
Qed.

Lemma get_None_ge (s : string) (n : nat) :
  String.get n s = None ↔ String.length s ≤ n.
Proof.
  revert n. induction s as [|a s IH]; intros [|n]; simpl;
    try (split; (done || lia)).
  rewrite IH. lia.
Qed.

Lemma string_app_cons (a : ascii) (s t : string) :
  String a s +:+ t = String a (s +:+ t).
Proof. reflexivity. Qed.

Lemma string_app_empty_l (t : string) : EmptyString +:+ t = t.
Proof. reflexivity. Qed.

Lemma string_get_app_l (s t : string) (n : nat) :
  n < String.length s → String.get n (s +:+ t) = String.get n s.
Proof.
  revert n. induction s as [|a s IH]; intros [|n]; rewrite ?string_app_cons; simpl;
    try done; try lia.
  intros H. apply IH. lia.
Qed.

Lemma string_get_app_r (s t : string) (n : nat) :
  String.get (String.length s + n) (s +:+ t) = String.get n t.
Proof. induction s as [|a s IH]; rewrite ?string_app_cons; simpl; done. Qed.

Lemma string_length_app (s t : string) :
  String.length (s +:+ t) = String.length s + String.length t.
Proof. induction s as [|a s IH]; rewrite ?string_app_cons; simpl; [done|]. by rewrite IH. Qed.

Lemma string_app_empty_r (s : string) : s +:+ EmptyString = s.
Proof. induction s as [|a s IH]; rewrite ?string_app_cons; [done|]. by rewrite IH. Qed.

Lemma string_app_assoc (s t u : string) : (s +:+ t) +:+ u = s +:+ (t +:+ u).
Proof. induction s as [|a s IH]; rewrite ?string_app_cons; [done|]. by rewrite IH. Qed.

(** One iteration of the loop, when there is a character to read. *)
Lemma processLoop_step {W} (options : CSVParseOptions) (so : CSVStreamOptions W)
    (fuel : nat) (pw : CSVParser * W) (char : ascii) :
  String.get (bufferIndex (fst pw)) (buffer (fst pw)) = Some char →
  processLoop options so (S fuel) pw
  = processLoop options so fuel
      (setBufferIndex (S (bufferIndex (fst (processCharacter options so char pw))))
         (fst (processCharacter options so char pw)),
       snd (processCharacter options so char pw)).
Proof.
  intros Hc. pose proof (get_Some_lt _ _ _ Hc) as Hlt.
  apply Nat.ltb_lt in Hlt.
  cbn [processLoop]. rewrite Hlt, Hc.
  by destruct (processCharacter options so char pw).
Qed.

(** The loop stops when the index has reached the end of the buffer. *)
Lemma processLoop_done {W} (options : CSVParseOptions) (so : CSVStreamOptions W)
    (fuel : nat) (pw : CSVParser * W) :
  String.length (buffer (fst pw)) ≤ bufferIndex (fst pw) →
  processLoop options so fuel pw = pw.
Proof.
  intros Hge. destruct fuel; [done|].
  cbn [processLoop]. apply Nat.ltb_ge in Hge. by rewrite Hge.
Qed.

(** ** Session isolation *)

Lemma reset_constant (p q : CSVParser) : reset p = reset q.
Proof. reflexivity. Qed.

(** C10. [parse] isolates sessions on a reused instance: whatever state an
    earlier [parse(s1)] left the instance in, [parse(s2)] on it returns the
    result that [parse(s2)] returns on a freshly constructed parser with the
    same options, because [reset] overwrites every mutable field first. *)
Theorem parse_isolates_sessions (options : CSVParseOptions) (s1 s2 : string)
    (p : CSVParser) :
  fst (parse options s2 (snd (parse options s1 p))) = parseFresh options s2
  ∧ reset (snd (parse options s1 p)) = newParser.
Proof.
  split; [|reflexivity].
  unfold parseFresh, parse.
  by rewrite (reset_constant (snd _) newParser).
Qed.

(** ** Escaped quotes *)

(** The escaped quote where the code handles it: inside a quoted field, an
    escape character immediately followed in the buffer by a quote
    character appends exactly one quote character to the current field,
    advances the column by 2, skips the second character (the loop resumes
    two positions further) and stays in quoted mode; nothing else changes
    and no callback runs.  With the default options the quoted input with
    doubled quotes parses to the single row whose fields are He said, a
    quote, hi, a quote, and 2. *)
Lemma escaped_quote_in_quoted_field :
  (∀ (W : Type) (options : CSVParseOptions) (so : CSVStreamOptions W)
     (char next : ascii) (p : CSVParser) (w : W),
     inQuotes p = true →
     String.get (bufferIndex p) (buffer p) = Some char →
     str1 char = escape options →
     String.get (S (bufferIndex p)) (buffer p) = Some next →
     str1 next = quote options →
     let p' := fst (processCharacter options so char (p, w)) in
     currentField p' = currentField p +:+ str1 next
     ∧ currentColumn p' = currentColumn p + 2
     ∧ inQuotes p' = true
     ∧ bufferIndex p' = S (bufferIndex p)
     ∧ currentRow p' = currentRow p
     ∧ errors p' = errors p
     ∧ (currentLine p', rowIndex p', headers p', buffer p')
       = (currentLine p, rowIndex p, headers p, buffer p)
     ∧ snd (processCharacter options so char (p, w)) = w
     ∧ ∀ fuel, processLoop options so (S fuel) (p, w)
               = processLoop options so fuel
                   (setBufferIndex (bufferIndex p + 2) p', w))
  ∧ parseFresh defaultOptions escapedQuoteInput
    = {| result_headers := None;
         rows := [RowArray ["He said " +:+ Q +:+ "hi" +:+ Q; "2"]];
         result_errors := [] |}.
Proof.
  split; [|by vm_compute].
  intros W options so char next p w Hq Hc He Hn Hnq p'.
  assert (Hstep : processCharacter options so char (p, w)
          = (setBufferIndex (S (bufferIndex p))
               (setField (currentField p +:+ quote options)
                  (currentColumn p + 2) p), w)).
  { unfold processCharacter. rewrite Hq, Hn. simpl.
    apply charIs_true in He, Hnq. by rewrite He, Hnq. }
  subst p'. rewrite Hstep.
  split_and!; try (simpl; by rewrite <- ?Hnq).
  intros fuel.
  rewrite (processLoop_step options so fuel (p, w) char Hc), Hstep. simpl.
  do 3 f_equal. lia.
Qed.

Lemma escaped_quote_in_quoted_field_witness :
  let p' := fst (processCharacter defaultOptions parseCallbacks DQUOTE
                   (atDoubledQuote, [])) in
  currentField p' = "He said " +:+ Q
  ∧ currentColumn p' = 12
  ∧ inQuotes p' = true
  ∧ bufferIndex p' = 10.
Proof.
  pose proof (proj1 escaped_quote_in_quoted_field (list Row) defaultOptions
                parseCallbacks DQUOTE DQUOTE atDoubledQuote []
                eq_refl eq_refl eq_refl eq_refl eq_refl) as H.
  cbv zeta in H. destruct H as (Hf & Hc & Hq & Hi & _).
  repeat split; assumption.
Defined.

(** C2 at the input where the code departs from it.  In quoted mode, when
    the escape character is the last character of the buffer, the lookahead
    at [buffer[bufferIndex + 1]] finds nothing, whatever the next chunk
    starts with.  Where the quote is its own escape the character is then
    taken for the closing quote: quoted mode is left, nothing is appended
    and the column advances by 1.  So the quoted field a, doubled quote, b
    written in two chunks cut between the escape and the quote ends the
    first chunk outside quoted mode with the field a at column 4, and the
    second chunk, which starts with the quote, adds it with an unexpected
    quote diagnostic.  The same four characters written as one chunk
    append one quote, reach column 5 and stay in quoted mode. *)
Theorem escape_at_chunk_end_closes_quoted_field :
  (∀ (W : Type) (so : CSVStreamOptions W) (c : ascii) (d : string) (s : bool)
     (h : HeadersOption) (pre : string) (p : CSVParser) (w : W),
     let options := {| delimiter := d; quote := str1 c; escape := str1 c;
                       skipEmptyLines := s; headersOption := h |} in
     let p0 := setInQuotes true (currentColumn p)
                 (rebase (pre +:+ str1 c) (String.length pre) p) in
     String.get (bufferIndex p0) (buffer p0) = Some c
     ∧ String.get (S (bufferIndex p0)) (buffer p0) = None
     ∧ processCharacter options so c (p0, w)
       = (setInQuotes false (S (currentColumn p)) p0, w))
  ∧ (let p := fst (write defaultOptions recordingCallbacks (Q +:+ "a" +:+ Q)
                     (newParser, [])) in
     (currentField p, inQuotes p, currentColumn p, errors p)
     = ("a", false, 4, []))
  ∧ (let p := fst (write defaultOptions recordingCallbacks (Q +:+ "b" +:+ Q)
                     (write defaultOptions recordingCallbacks (Q +:+ "a" +:+ Q)
                        (newParser, []))) in
     (currentField p, inQuotes p, currentColumn p, errors p)
     = ("a" +:+ Q +:+ "b" +:+ Q, false, 7,
        [mkError 1 4 "Unexpected quote character";
         mkError 1 6 "Unexpected quote character"]))
  ∧ (let p := fst (write defaultOptions recordingCallbacks
                     (Q +:+ "a" +:+ Q +:+ Q) (newParser, [])) in
     (currentField p, inQuotes p, currentColumn p, errors p)
     = ("a" +:+ Q, true, 5, []))
  ∧ (let p := fst (write defaultOptions recordingCallbacks doubledQuoteInput
                     (newParser, [])) in
     (currentField p, inQuotes p, currentColumn p, errors p)
     = ("a" +:+ Q +:+ "b", false, 7, [])).
Proof.
  split_and!; [|by vm_compute..].
  intros W so c d s h pre p w options p0.
  assert (Hget : String.get (String.length pre) (pre +:+ str1 c) = Some c).
  { rewrite <- (Nat.add_0_r (String.length pre)). by rewrite string_get_app_r. }
  assert (Hnone : String.get (S (String.length pre)) (pre +:+ str1 c) = None).
  { apply get_None_ge. rewrite string_length_app. cbn. lia. }
  split_and!; [done|done|].
  unfold processCharacter, p0, options.
  cbn [inQuotes setInQuotes rebase setBufferIndex setBuffer buffer bufferIndex
       escape quote].
  rewrite Hnone. cbn [nextIs]. rewrite andb_false_r.
  by rewrite (proj2 (charIs_true c (str1 c)) eq_refl).
Qed.

(** ** Quotes outside a quoted field *)

(** C5. Outside quoted mode, a quote character met while the current field
    already has content records the diagnostic [Unexpected quote character]
    at the current line and column, is appended literally and does not enter
    quoted mode; met while the field is empty it enters quoted mode and is
    not appended.  Either way the column advances by one and nothing else
    changes.  The input [unexpectedQuoteInput] (ab, a quote, then c,d)
    yields that diagnostic and a first field made of ab, the quote and c. *)
Theorem quote_outside_quoted_field :
  (∀ (W : Type) (options : CSVParseOptions) (so : CSVStreamOptions W)
     (char : ascii) (p : CSVParser) (w : W),
     inQuotes p = false →
     str1 char = quote options →
     let p' := fst (processCharacter options so char (p, w)) in
     snd (processCharacter options so char (p, w)) = w
     ∧ currentColumn p' = S (currentColumn p)
     ∧ (currentLine p', currentRow p', rowIndex p', headers p', buffer p',
        bufferIndex p')
       = (currentLine p, currentRow p, rowIndex p, headers p, buffer p,
          bufferIndex p)
     ∧ (currentField p ≠ EmptyString →
        errors p' = errors p ++ [mkError (currentLine p) (currentColumn p)
                                   "Unexpected quote character"]
        ∧ currentField p' = currentField p +:+ str1 char
        ∧ inQuotes p' = false)
     ∧ (currentField p = EmptyString →
        errors p' = errors p
        ∧ currentField p' = EmptyString
        ∧ inQuotes p' = true))
  ∧ parseFresh defaultOptions unexpectedQuoteInput
    = {| result_headers := None;
         rows := [RowArray ["ab" +:+ Q +:+ "c"; "d"]];
         result_errors := [mkError 1 3 "Unexpected quote character"] |}.
Proof.
  split; [|by vm_compute].
  intros W options so char p w Hq Hc p'. subst p'.
  apply charIs_true in Hc.
  unfold processCharacter. rewrite Hq, Hc, length_pos_truthy.
  destruct (truthy (currentField p)) eqn:Ht; simpl.
  - apply truthy_true in Ht. split_and!; try done.
  - apply not_true_iff_false in Ht. rewrite truthy_true in Ht.
    split_and!; done.
Qed.

Lemma quote_outside_quoted_field_witness :
  (let p' := fst (processCharacter defaultOptions parseCallbacks DQUOTE
                    (afterAB, [])) in
   errors p' = [mkError 1 3 "Unexpected quote character"]
   ∧ currentField p' = "ab" +:+ Q
   ∧ inQuotes p' = false)
  ∧ (let p' := fst (processCharacter defaultOptions parseCallbacks DQUOTE
                      (newParser, [])) in
     errors p' = [] ∧ currentField p' = EmptyString ∧ inQuotes p' = true).
Proof.
  pose proof (proj1 quote_outside_quoted_field (list Row) defaultOptions
                parseCallbacks DQUOTE afterAB [] eq_refl eq_refl) as H1.
  pose proof (proj1 quote_outside_quoted_field (list Row) defaultOptions
                parseCallbacks DQUOTE newParser [] eq_refl eq_refl) as H2.
  cbv zeta in H1, H2.
  destruct H1 as (_ & _ & _ & H1 & _). destruct H2 as (_ & _ & _ & _ & H2).
  split; [apply H1; discriminate | apply H2; reflexivity].
Defined.

(** ** Row boundaries *)

Lemma callOnHeaders_wellBehaved {W} (so : CSVStreamOptions W) :
  wellBehaved so →
  ∃ g, ∀ hs p w, headers p = Some hs → callOnHeaders so hs (p, w) = (p, g hs w).
Proof.
  intros Hwb. unfold callOnHeaders.
  destruct (onHeaders so) as [f|] eqn:Hf.
  - destruct (Hwb f Hf) as [g Hg]. by exists g.
  - by exists (λ _ w, w).
Qed.

(** What [endRow] always does to the parser, whatever branch it takes: the
    row and field accumulators are cleared, the line advances, the column
    returns to 1; the buffer, the quote state and the diagnostics are
    untouched. *)
Lemma endRow_frame {W} (options : CSVParseOptions) (so : CSVStreamOptions W)
    (p : CSVParser) (w : W) :
  wellBehaved so →
  let p' := fst (endRow options so (p, w)) in
  buffer p' = buffer p ∧ bufferIndex p' = bufferIndex p
  ∧ inQuotes p' = inQuotes p ∧ errors p' = errors p
  ∧ currentLine p' = S (currentLine p) ∧ currentColumn p' = 1
  ∧ currentRow p' = [] ∧ currentField p' = EmptyString.
Proof.
  intros Hwb. destruct (callOnHeaders_wellBehaved so Hwb) as [g Hg].
  unfold endRow.
  destruct (skipEmptyLines options && _ && _); [by simpl|].
  destruct (headersOption options) as [[|]|names], (headers (pushField p)) eqn:Hh;
    try (by simpl); rewrite Hg by done; by simpl.
Qed.

(** C9. A completed row that consists of exactly one empty field is an
    empty line: with [skipEmptyLines] it is discarded, leaving [rowIndex]
    and the header untouched and running no callback, while the line
    counter advances and the column returns to 1.  The input with a blank
    middle line yields 2 rows when skipping and a middle row holding one
    empty field otherwise; a diagnostic after the skipped line is reported on line 3. *)
Theorem empty_line_skipped :
  (∀ (W : Type) (options : CSVParseOptions) (so : CSVStreamOptions W)
     (p : CSVParser) (w : W),
     skipEmptyLines options = true →
     currentRow (pushField p) = [EmptyString] →
     let p' := fst (endRow options so (p, w)) in
     snd (endRow options so (p, w)) = w
     ∧ rowIndex p' = rowIndex p
     ∧ headers p' = headers p
     ∧ currentLine p' = S (currentLine p)
     ∧ currentColumn p' = 1
     ∧ currentRow p' = [] ∧ currentField p' = EmptyString
     ∧ (errors p', inQuotes p', buffer p', bufferIndex p')
       = (errors p, inQuotes p, buffer p, bufferIndex p))
  ∧ rows (parseFresh (withSkipEmptyLines true defaultOptions) emptyLineInput)
    = [RowArray ["a"; "b"]; RowArray ["c"; "d"]]
  ∧ rows (parseFresh (withSkipEmptyLines false defaultOptions) emptyLineInput)
    = [RowArray ["a"; "b"]; RowArray [EmptyString]; RowArray ["c"; "d"]]
  ∧ result_errors (parseFresh (withSkipEmptyLines true defaultOptions)
                     ("a,b" +:+ NL +:+ NL +:+ "c" +:+ Q))
    = [mkError 3 2 "Unexpected quote character"].
Proof.
  split; [|by vm_compute].
  intros W options so p w Hskip Hrow p'. subst p'.
  unfold endRow. rewrite Hskip, Hrow. simpl. split_and!; done.
Qed.

Lemma empty_line_skipped_witness :
  let p' := fst (endRow defaultOptions parseCallbacks
                   (setRowIndex 4 newParser, [])) in
  rowIndex p' = 4 ∧ headers p' = None ∧ currentLine p' = 2.
Proof.
  pose proof (proj1 empty_line_skipped (list Row) defaultOptions parseCallbacks
                (setRowIndex 4 newParser) [] eq_refl eq_refl) as H.
  cbv zeta in H. destruct H as (_ & Hi & Hh & Hl & _).
  repeat split; assumption.
Defined.

(** ** End of input *)

(** C6. An unclosed quoted field is reported, not fatal: when the input ends
    inside a quoted field, [finalize] first flushes the pending row through
    [endRow] exactly as it otherwise would, then appends the diagnostic
    [Unclosed quoted field] (at the position reached) to the diagnostics
    collected so far, and still delivers the end notification with the full
    diagnostic list and the final row count.  The input made of a quote
    followed by abc yields that one diagnostic, and the partial row. *)
Theorem unclosed_quote_reported :
  (∀ (W : Type) (options : CSVParseOptions) (so : CSVStreamOptions W)
     (p : CSVParser) (w : W),
     wellBehaved so →
     inQuotes p = true →
     let flushed := if pending p then endRow options so (p, w) else (p, w) in
     let p' := fst (finalize options so (p, w)) in
     errors p' = errors p ++ [mkError (currentLine p') (currentColumn p')
                                "Unclosed quoted field"]
     ∧ rowIndex p' = rowIndex (fst flushed)
     ∧ snd (finalize options so (p, w))
       = match onEnd so with
         | Some f => f (rowIndex p') (errors p') (snd flushed)
         | None => snd flushed
         end)
  ∧ parseFresh defaultOptions (Q +:+ "abc")
    = {| result_headers := None;
         rows := [RowArray ["abc"]];
         result_errors := [mkError 2 1 "Unclosed quoted field"] |}
  ∧ streamFresh defaultOptions [Q +:+ "abc"]
    = [RowNotified (RowArray ["abc"]) 0;
       EndNotified 1 [mkError 2 1 "Unclosed quoted field"]].
Proof.
  split; [|by vm_compute].
  intros W options so p w Hwb Hq flushed p'. subst flushed p'.
  unfold finalize, pending. cbn [fst].
  destruct (truthy (currentField p) || (0 <? length (currentRow p))).
  - pose proof (endRow_frame options so p w Hwb) as Hfr. cbv zeta in Hfr.
    destruct (endRow options so (p, w)) as [p1 w1]. cbn [fst snd] in *.
    destruct Hfr as (_ & _ & Hq1 & He1 & _).
    rewrite Hq1, Hq. simpl. by rewrite He1.
  - rewrite Hq. by simpl.
Qed.

Lemma unclosed_quote_reported_witness :
  let p' := fst (finalize defaultOptions recordingCallbacks
                   (insideQuotedABC, [])) in
  errors p' = [mkError (currentLine p') (currentColumn p')
                 "Unclosed quoted field"]
  ∧ snd (finalize defaultOptions recordingCallbacks (insideQuotedABC, []))
    = [RowNotified (RowArray ["abc"]) 0; EndNotified (rowIndex p') (errors p')].
Proof.
  pose proof (proj1 unclosed_quote_reported (list Notification) defaultOptions
                recordingCallbacks insideQuotedABC []
                recordingCallbacks_wellBehaved eq_refl) as H.
  cbv zeta in H. destruct H as (He & _ & Hw).
  split; [exact He | exact Hw].
Defined.

(** ** Name-keyed rows *)

Lemma objectUpTo_S (hs cr : list string) (n : nat) :
  objectUpTo hs cr (S n)
  = match hs !! n with
    | Some k => assignProperty k (orEmpty (cr !! n)) (objectUpTo hs cr n)
    | None => objectUpTo hs cr n
    end.
Proof. unfold objectUpTo. by rewrite seq_S, foldl_app. Qed.

Lemma assignProperty_lookup (k v k' : string) (row : gmap string string) :
  assignProperty k v row !! k'
  = if bool_decide (k' = k ∧ k ≠ PROTO) then Some v else row !! k'.
Proof.
  unfold assignProperty. destruct (decide (k = PROTO)) as [Hp|Hp].
  - rewrite (bool_decide_eq_true_2 _ Hp).
    by rewrite bool_decide_eq_false_2 by (by intros [_ ?]).
  - rewrite (bool_decide_eq_false_2 _ Hp).
    destruct (decide (k' = k)) as [->|Hk].
    + by rewrite lookup_insert_eq, bool_decide_eq_true_2.
    + rewrite lookup_insert_ne by done.
      by rewrite bool_decide_eq_false_2 by (by intros [? _]).
Qed.

(** The name [__proto__] is never a key of the row. *)
Lemma objectUpTo_proto (hs cr : list string) (n : nat) :
  objectUpTo hs cr n !! PROTO = None.
Proof.
  induction n as [|n IH]; [done|].
  rewrite objectUpTo_S. destruct (hs !! n) as [k|]; [|done].
  rewrite assignProperty_lookup.
  by rewrite bool_decide_eq_false_2 by (by intros [-> ?]).
Qed.

Lemma objectUpTo_absent (hs cr : list string) (n : nat) (k : string) :
  (∀ i, i < n → hs !! i ≠ Some k) → objectUpTo hs cr n !! k = None.
Proof.
  induction n as [|n IH]; intros Hk; [done|].
  rewrite objectUpTo_S.
  destruct (hs !! n) as [k'|] eqn:Hn.
  - rewrite assignProperty_lookup, bool_decide_eq_false_2; [apply IH; auto with lia|].
    intros [-> _]. by apply (Hk n); [lia|].
  - apply IH; auto with lia.
Qed.

Lemma objectUpTo_last (hs cr : list string) (n i : nat) (k : string) :
  k ≠ PROTO →
  i < n → hs !! i = Some k → (∀ j, i < j → j < n → hs !! j ≠ Some k) →
  objectUpTo hs cr n !! k = Some (orEmpty (cr !! i)).
Proof.
  intros Hproto.
  induction n as [|n IH]; intros Hi Hk Hlast; [lia|].
  rewrite objectUpTo_S.
  destruct (decide (i = n)) as [->|Hne].
  - rewrite Hk, assignProperty_lookup. by rewrite bool_decide_eq_true_2.
  - assert (Hin : i < n) by lia.
    destruct (hs !! n) as [k'|] eqn:Hn.
    + rewrite assignProperty_lookup, bool_decide_eq_false_2;
        [apply IH; auto with lia|].
      intros [-> _]. by apply (Hlast n); [lia..|].
    + apply IH; auto with lia.
Qed.

(** The policy for a header and a row of different lengths, for the names
    that the row can hold as its own properties (every name but
    [__proto__]): the mapping binds the header names, in order, to the field
    at the same position (every name when the names are distinct; for a
    name that occurs more than once the last occurrence is the one that
    stays); a position past the end of the row is bound to the empty
    string, the fields past the end of the header are not in the mapping,
    and the mapping has no other key.  Header a, b, c with row 1, 2 gives c
    the empty string; with row 1, 2, 3, 4 the fourth field is dropped. *)
Lemma header_row_mismatch_policy :
  (∀ (hs cr : list string) (i : nat) (k : string),
     k ≠ PROTO →
     hs !! i = Some k →
     (∀ j, i < j → hs !! j ≠ Some k) →
     toObject hs cr !! k = Some (default EmptyString (cr !! i)))
  ∧ (∀ (hs cr : list string) (i : nat) (k : string),
       k ≠ PROTO →
       NoDup hs →
       hs !! i = Some k →
       toObject hs cr !! k = Some (default EmptyString (cr !! i)))
  ∧ (∀ (hs cr : list string) (k : string),
       k ∉ hs → toObject hs cr !! k = None)
  ∧ (∀ (p : CSVParser) (hs : list string),
       headers p = Some hs →
       makeRow p = RowObject (toObject hs (currentRow p)))
  ∧ toObject ["a"; "b"; "c"] ["1"; "2"]
    = {[ "a" := "1"; "b" := "2"; "c" := EmptyString ]}
  ∧ toObject ["a"; "b"; "c"] ["1"; "2"; "3"; "4"]
    = {[ "a" := "1"; "b" := "2"; "c" := "3" ]}
  ∧ rows (parseFresh (withHeaders (HeadersList ["a"; "b"; "c"]) defaultOptions)
            ("1,2" +:+ NL +:+ "1,2,3,4"))
    = [RowObject {[ "a" := "1"; "b" := "2"; "c" := EmptyString ]};
       RowObject {[ "a" := "1"; "b" := "2"; "c" := "3" ]}].
Proof.
  split_and!.
  - intros hs cr i k Hproto Hk Hlast. rewrite <- orEmpty_default.
    apply (objectUpTo_last hs cr (length hs) i k); [done| |done|auto].
    by apply lookup_lt_Some in Hk.
  - intros hs cr i k Hproto Hnd Hk. rewrite <- orEmpty_default.
    apply (objectUpTo_last hs cr (length hs) i k); [done| |done|].
    + by apply lookup_lt_Some in Hk.
    + intros j Hij _ Hj. pose proof (NoDup_lookup hs i j k Hnd Hk Hj). lia.
  - intros hs cr k Hk. apply (objectUpTo_absent hs cr (length hs) k).
    intros i _ Hi. apply Hk. by apply list_elem_of_lookup_2 in Hi.
  - intros p hs Hh. unfold makeRow. by rewrite Hh.
  - by vm_compute.
  - by vm_compute.
  - by vm_compute.
Qed.

Lemma header_row_mismatch_policy_witness :
  toObject ["a"; "b"; "c"] ["1"; "2"] !! "c" = Some EmptyString
  ∧ toObject ["a"; "b"; "a"] ["1"; "2"; "3"; "4"] !! "a" = Some "3"
  ∧ toObject ["a"; "b"; "c"] ["1"; "2"; "3"; "4"] !! "d" = None.
Proof.
  destruct header_row_mismatch_policy as (Hin & _ & Hout & _).
  split_and!.
  - apply (Hin ["a"; "b"; "c"] ["1"; "2"] 2 "c"); [done|reflexivity|].
    intros [|[|[|j]]] Hj; (lia || done).
  - apply (Hin ["a"; "b"; "a"] ["1"; "2"; "3"; "4"] 2 "a"); [done|reflexivity|].
    intros [|[|[|j]]] Hj; (lia || done).
  - apply Hout. intros Hd. by repeat (apply elem_of_cons in Hd as [Hd|Hd]; [done|]);
      apply elem_of_nil in Hd.
Defined.

(** C8 at the input where the code departs from it.  The loop assigns
    [row[headers[i]]] for every position of the header, but the row is a
    plain object: for the header name [__proto__] the assignment reaches
    the inherited setter and creates no property.  So that name is never
    bound, whatever its position and whatever the row holds: a text whose
    first line is [__proto__,b], parsed with [headers: true], reports both
    names as the header and yields for the line 1,2 a row that binds b
    alone, the field under [__proto__] being lost; the same text with the
    header a, b binds both fields. *)
Theorem proto_header_name_is_not_bound :
  (∀ hs cr : list string, toObject hs cr !! PROTO = None)
  ∧ toObject [PROTO; "b"] ["1"; "2"] = {[ "b" := "2" ]}
  ∧ parseFresh (withHeaders (HeadersBool true) defaultOptions)
      (PROTO +:+ ",b" +:+ NL +:+ "1,2")
    = {| result_headers := Some [PROTO; "b"];
         rows := [RowObject {[ "b" := "2" ]}];
         result_errors := [] |}
  ∧ parseFresh (withHeaders (HeadersBool true) defaultOptions)
      ("a,b" +:+ NL +:+ "1,2")
    = {| result_headers := Some ["a"; "b"];
         rows := [RowObject {[ "a" := "1"; "b" := "2" ]}];
         result_errors := [] |}.
Proof.
  split_and!; [|by vm_compute..].
  intros hs cr. apply (objectUpTo_proto hs cr (length hs)).
Qed.

(** ** Header resolution seen from the rows that survive

    The surviving rows of a parse are the same whatever the [headers]
    option; the option only decides how they are presented.  [headerView h
    raw] is the header, the emitted rows and the row count that option [h]
    makes of the surviving rows [raw]. *)

Section HeaderView.
Variable o : CSVParseOptions.
Variable h : HeadersOption.

Let plain := withHeaders (HeadersBool false) o.
Let shown := withHeaders h o.

Lemma viewRel_endRow (A B : CSVParser * list Row) :
  viewRel h A B →
  viewRel h (endRow plain parseCallbacks A) (endRow shown parseCallbacks B).
Proof.
  destruct A as [pA wA]. intros (raw & Hw & Hh & Hi & ->).
  destruct pA as [buf ln col q fld row hd errs ri bi].
  simpl in Hw, Hh, Hi. subst wA hd ri.
  unfold endRow, plain, shown. simpl.
  destruct (skipEmptyLines o && _ && _).
  { exists raw. by split_and!. }
  exists (raw ++ [row ++ [fld]]).
  unfold emitRow, makeRow, callOnHeaders. simpl.
  rewrite fmap_app, length_app. simpl.
  destruct h as [[|]|names]; destruct raw as [|first rest]; simpl;
    rewrite ?fmap_app, ?length_app; simpl.
  all: split_and!; try done.
  all: try (unfold resetRow, setRowIndex, pushField, setHeaders; simpl;
            repeat f_equal; lia).
Qed.

Lemma viewRel_processCharacter (c : ascii) (A B : CSVParser * list Row) :
  viewRel h A B →
  viewRel h (processCharacter plain parseCallbacks c A)
            (processCharacter shown parseCallbacks c B).
Proof.
  destruct A as [pA wA]. intros (raw & Hw & Hh & Hi & ->).
  destruct pA as [buf ln col q fld row hd errs ri bi].
  simpl in Hw, Hh, Hi. subst wA hd ri.
  unfold processCharacter, plain, shown. cbn -[endRow].
  destruct q.
  - destruct (charIs c (escape o) && _); [by exists raw|].
    destruct (charIs c (quote o)); by exists raw.
  - destruct (charIs c (quote o)).
    { case_match; by exists raw. }
    destruct (charIs c (delimiter o)); [by exists raw|].
    destruct (_ || _); [|by exists raw].
    destruct (_ && _); apply viewRel_endRow; by exists raw.
Qed.

Lemma viewRel_processLoop (fuel : nat) (A B : CSVParser * list Row) :
  viewRel h A B →
  viewRel h (processLoop plain parseCallbacks fuel A)
            (processLoop shown parseCallbacks fuel B).
Proof.
  revert A B. induction fuel as [|fuel IH]; intros A B HR; [done|].
  cbn [processLoop].
  assert (Hbuf : buffer (fst B) = buffer (fst A)
                 ∧ bufferIndex (fst B) = bufferIndex (fst A)).
  { destruct HR as (raw & _ & _ & _ & ->). by destruct A as [[] ?]. }
  destruct Hbuf as [-> ->].
  destruct (_ <? _); [|done].
  destruct (String.get _ _) as [c|]; [|done].
  pose proof (viewRel_processCharacter c A B HR) as HR'.
  destruct (processCharacter plain parseCallbacks c A) as [pA' wA'].
  destruct (processCharacter shown parseCallbacks c B) as [pB' wB'].
  apply IH.
  destruct HR' as (raw & Hw & Hh & Hi & HB). exists raw.
  injection HB as -> ->. destruct pA'. simpl in *. by subst.
Qed.

Lemma viewRel_processChunk (chunk : string) (A B : CSVParser * list Row) :
  viewRel h A B →
  viewRel h (processChunk plain parseCallbacks chunk A)
            (processChunk shown parseCallbacks chunk B).
Proof.
  intros HR. unfold processChunk.
  destruct A as [pA wA], B as [pB wB].
  assert (HR0 : viewRel h
            (setBufferIndex 0 (setBuffer (buffer pA +:+ chunk) pA), wA)
            (setBufferIndex 0 (setBuffer (buffer pB +:+ chunk) pB), wB)).
  { destruct HR as (raw & Hw & Hh & Hi & HB). exists raw.
    injection HB as -> ->. destruct pA. simpl in *. by subst. }
  assert (Hlen : String.length (buffer (setBufferIndex 0
                    (setBuffer (buffer pB +:+ chunk) pB)))
                 = String.length (buffer (setBufferIndex 0
                    (setBuffer (buffer pA +:+ chunk) pA)))).
  { destruct HR as (raw & _ & _ & _ & HB). injection HB as -> _.
    by destruct pA. }
  rewrite Hlen.
  pose proof (viewRel_processLoop
                (String.length (buffer (setBufferIndex 0
                    (setBuffer (buffer pA +:+ chunk) pA)))) _ _ HR0) as HR1.
  destruct (processLoop plain _ _ _) as [pA1 wA1].
  destruct (processLoop shown _ _ _) as [pB1 wB1].
  destruct HR1 as (raw & Hw & Hh & Hi & HB). exists raw.
  injection HB as -> ->. destruct pA1. simpl in *. by subst.
Qed.

Lemma viewRel_finalize (A B : CSVParser * list Row) :
  viewRel h A B →
  viewRel h (finalize plain parseCallbacks A)
            (finalize shown parseCallbacks B).
Proof.
  intros HR. unfold finalize.
  assert (Hpend : pending (fst B) = pending (fst A)).
  { destruct HR as (raw & _ & _ & _ & ->). by destruct A as [[] ?]. }
  unfold pending in Hpend. rewrite Hpend. clear Hpend.
  assert (Htail : ∀ A1 B1 : CSVParser * list Row, viewRel h A1 B1 →
            viewRel h
              (let '(p1, w1) := A1 in
               (if inQuotes p1 then addError "Unclosed quoted field" p1 else p1, w1))
              (let '(p1, w1) := B1 in
               (if inQuotes p1 then addError "Unclosed quoted field" p1 else p1, w1))).
  { intros [pA1 wA1] [pB1 wB1] (raw & Hw & Hh & Hi & HB). exists raw.
    injection HB as -> ->. destruct pA1. simpl in *. subst.
    by destruct inQuotes0. }
  destruct (_ || _).
  - apply (Htail _ _ (viewRel_endRow A B HR)).
  - apply (Htail _ _ HR).
Qed.
End HeaderView.

(** Every [headers] option presents the same surviving rows: there is one
    list [raw] of surviving rows such that the result of [parse] under any
    option [h] is [headerView h raw], with the same diagnostics. *)
Lemma parse_headerView (o : CSVParseOptions) (input : string) :
  ∃ (raw : list (list string)) (errs : list CSVError),
    ∀ h : HeadersOption,
      parseFresh (withHeaders h o) input
      = {| result_headers := (headerView h raw).1.1;
           rows := (headerView h raw).1.2;
           result_errors := errs |}.
Proof.
  pose (A := finalize (withHeaders (HeadersBool false) o) parseCallbacks
               (processChunk (withHeaders (HeadersBool false) o) parseCallbacks
                  input (newParser, []))).
  assert (HA : ∀ h, viewRel h A
             (finalize (withHeaders h o) parseCallbacks
                (processChunk (withHeaders h o) parseCallbacks
                   input (newParser, [])))).
  { intros h. apply viewRel_finalize, viewRel_processChunk.
    exists []. split_and!; try done. by destruct h as [[|]|]. }
  destruct (HA (HeadersBool false)) as (raw & Hw & Hh & Hi & _).
  exists raw, (errors (fst A)). intros h.
  destruct (HA h) as (raw' & Hw' & _ & _ & HB).
  assert (raw' = raw) as ->.
  { rewrite Hw in Hw'. revert Hw'. clear. revert raw'.
    induction raw as [|r raw IH]; intros [|r' raw']; simpl; try done.
    intros [= -> ?]. f_equal. by apply IH. }
  unfold parseFresh, parse. cbn [reset].
  change (reset newParser) with newParser.
  fold (newParser). rewrite HB. by destruct (fst A).
Qed.

(** The test [endRow] makes for an empty line. *)
Lemma emptyLine_test (l : list string) :
  (length l =? 1) && bool_decide (l !! 0 = Some EmptyString) = true
  ↔ l = [EmptyString].
Proof.
  split.
  - intros [Hl Hz]%andb_prop. apply Nat.eqb_eq in Hl.
    apply bool_decide_eq_true in Hz.
    destruct l as [|x [|]]; simpl in *; try done. by injection Hz as ->.
  - by intros ->.
Qed.

Lemma survives_test (options : CSVParseOptions) (row : list string) :
  survives options row →
  skipEmptyLines options && (length row =? 1)
    && bool_decide (row !! 0 = Some EmptyString) = false.
Proof.
  intros [Hs|Hr]; [by rewrite Hs|].
  rewrite <- andb_assoc. apply andb_false_iff. right.
  apply not_true_iff_false. by rewrite emptyLine_test.
Qed.

(** C7. With [headers: true] the fields of the first surviving row become
    the header; that row is not handed to [onRow] and does not increment
    [rowIndex].  Seen from the whole parse: the header is the first
    surviving row and the emitted rows are the remaining surviving rows,
    each mapped through it.  The input a,b,c / 1,2,3 yields the header
    a, b, c, the single row mapping a to 1, b to 2, c to 3, and no
    diagnostic. *)
Theorem first_row_becomes_header :
  (∀ (W : Type) (options : CSVParseOptions) (so : CSVStreamOptions W)
     (p : CSVParser) (w : W),
     wellBehaved so →
     headersOption options = HeadersBool true →
     headers p = None →
     survives options (currentRow p ++ [currentField p]) →
     let p' := fst (endRow options so (p, w)) in
     headers p' = Some (currentRow p ++ [currentField p])
     ∧ rowIndex p' = rowIndex p
     ∧ snd (endRow options so (p, w))
       = snd (callOnHeaders so (currentRow p ++ [currentField p])
                (setHeaders (Some (currentRow p ++ [currentField p]))
                   (pushField p), w)))
  ∧ (∀ (o : CSVParseOptions) (input : string),
       ∃ (raw : list (list string)) (errs : list CSVError),
         parseFresh (withHeaders (HeadersBool false) o) input
         = {| result_headers := None; rows := RowArray <$> raw;
              result_errors := errs |}
         ∧ parseFresh (withHeaders (HeadersBool true) o) input
           = {| result_headers := head raw;
                rows := (λ r, RowObject (toObject (default [] (head raw)) r))
                          <$> tail raw;
                result_errors := errs |})
  ∧ parseFresh (withHeaders (HeadersBool true) defaultOptions) firstRowInput
    = {| result_headers := Some ["a"; "b"; "c"];
         rows := [RowObject {[ "a" := "1"; "b" := "2"; "c" := "3" ]}];
         result_errors := [] |}.
Proof.
  split_and!; [| |by vm_compute].
  - intros W options so p w Hwb Ho Hh Hs p'. subst p'.
    destruct (callOnHeaders_wellBehaved so Hwb) as [g Hg].
    unfold endRow. cbn [currentRow pushField].
    rewrite (survives_test _ _ Hs), Ho. cbn [headers pushField]. rewrite Hh.
    rewrite Hg by done. by simpl.
  - intros o input. destruct (parse_headerView o input) as (raw & errs & Hv).
    exists raw, errs. rewrite (Hv (HeadersBool false)), (Hv (HeadersBool true)).
    split; [done|]. by destruct raw.
Qed.

Lemma first_row_becomes_header_witness :
  let p := setField "c" 6 (mkParser EmptyString 1 1 false EmptyString
                             ["a"; "b"] None [] 0 0) in
  let p' := fst (endRow (withHeaders (HeadersBool true) defaultOptions)
                   recordingCallbacks (p, [])) in
  headers p' = Some ["a"; "b"; "c"]
  ∧ rowIndex p' = 0
  ∧ snd (endRow (withHeaders (HeadersBool true) defaultOptions)
           recordingCallbacks (p, []))
    = [HeadersNotified ["a"; "b"; "c"]].
Proof.
  intros p.
  pose proof (proj1 first_row_becomes_header (list Notification)
                (withHeaders (HeadersBool true) defaultOptions)
                recordingCallbacks p []
                recordingCallbacks_wellBehaved eq_refl eq_refl) as H.
  cbv zeta in H. apply H. right. discriminate.
Defined.

(** ** Explicit header names *)

(** C3, as the code has it.  With an explicit list of names the header is
    resolved at the first surviving row boundary: that boundary assigns the
    list to [this.headers], notifies [onHeaders] and emits the row itself as
    a data row, row index 0 included.  Seen from the whole parse: every
    surviving row, the first included, is emitted mapped through the names,
    and the result reports the names exactly when at least one row
    survived. *)
Theorem explicit_header_resolved_at_first_row :
  (∀ (W : Type) (options : CSVParseOptions) (so : CSVStreamOptions W)
     (names : list string) (p : CSVParser) (w : W),
     wellBehaved so →
     headersOption options = HeadersList names →
     headers p = None →
     survives options (currentRow p ++ [currentField p]) →
     let p' := fst (endRow options so (p, w)) in
     headers p' = Some names
     ∧ rowIndex p' = S (rowIndex p)
     ∧ snd (endRow options so (p, w))
       = notifyRow so
           (RowObject (toObject names (currentRow p ++ [currentField p])))
           (rowIndex p)
           (snd (callOnHeaders so names
                   (setHeaders (Some names) (pushField p), w))))
  ∧ (∀ (o : CSVParseOptions) (names : list string) (input : string),
       ∃ (raw : list (list string)) (errs : list CSVError),
         parseFresh (withHeaders (HeadersBool false) o) input
         = {| result_headers := None; rows := RowArray <$> raw;
              result_errors := errs |}
         ∧ parseFresh (withHeaders (HeadersList names) o) input
           = {| result_headers := match raw with
                                  | [] => None
                                  | _ :: _ => Some names
                                  end;
                rows := (λ r, RowObject (toObject names r)) <$> raw;
                result_errors := errs |})
  ∧ parseFresh (withHeaders (HeadersList ["name"; "age"; "city"]) defaultOptions)
      ("John,25,New York" +:+ NL +:+ "Jane,30,Los Angeles")
    = {| result_headers := Some ["name"; "age"; "city"];
         rows := [RowObject {[ "name" := "John"; "age" := "25";
                               "city" := "New York" ]};
                  RowObject {[ "name" := "Jane"; "age" := "30";
                               "city" := "Los Angeles" ]}];
         result_errors := [] |}.
Proof.
  split_and!; [| |by vm_compute].
  - intros W options so names p w Hwb Ho Hh Hs p'. subst p'.
    destruct (callOnHeaders_wellBehaved so Hwb) as [g Hg].
    unfold endRow. cbn [currentRow pushField].
    rewrite (survives_test _ _ Hs), Ho. cbn [headers pushField]. rewrite Hh.
    rewrite Hg by done. by simpl.
  - intros o names input.
    destruct (parse_headerView o input) as (raw & errs & Hv).
    exists raw, errs.
    rewrite (Hv (HeadersBool false)), (Hv (HeadersList names)).
    split; [done|]. by destruct raw.
Qed.

Lemma explicit_header_resolved_at_first_row_witness :
  let p := setField "2" 4 (mkParser EmptyString 1 1 false EmptyString
                             ["1"] None [] 0 0) in
  let p' := fst (endRow (withHeaders (HeadersList ["a"; "b"]) defaultOptions)
                   recordingCallbacks (p, [])) in
  headers p' = Some ["a"; "b"]
  ∧ rowIndex p' = 1
  ∧ snd (endRow (withHeaders (HeadersList ["a"; "b"]) defaultOptions)
           recordingCallbacks (p, []))
    = [HeadersNotified ["a"; "b"];
       RowNotified (RowObject (toObject ["a"; "b"] ["1"; "2"])) 0].
Proof.
  intros p.
  pose proof (proj1 explicit_header_resolved_at_first_row (list Notification)
                (withHeaders (HeadersList ["a"; "b"]) defaultOptions)
                recordingCallbacks ["a"; "b"] p []
                recordingCallbacks_wellBehaved eq_refl eq_refl) as H.
  cbv zeta in H. apply H. right. discriminate.
Defined.

(** C3, as stated, fails: on an input with no surviving row the explicit
    header is never resolved; [parse] reports no header and a session never
    calls [onHeaders]. *)
Lemma explicit_header_unresolved_without_rows :
  parseFresh (withHeaders (HeadersList ["a"; "b"]) defaultOptions) EmptyString
  = {| result_headers := None; rows := []; result_errors := [] |}
  ∧ parseFresh (withHeaders (HeadersList ["a"; "b"]) defaultOptions) (NL +:+ NL)
    = {| result_headers := None; rows := []; result_errors := [] |}
  ∧ streamFresh (withHeaders (HeadersList ["a"; "b"]) defaultOptions) [NL +:+ NL]
    = [EndNotified 0 []]
  ∧ headers (fst (parseStream (newParser, @nil Notification))) = None.
Proof. by vm_compute. Qed.

(** ** The buffer as seen by the state machine

    The state machine reads the buffer in two places only: the character at
    [bufferIndex], and the one-character lookahead after an escape character
    or a carriage return.  [rebase b i p] is [p] with another buffer and
    index. *)

Lemma rebase_rebase (b b' : string) (i i' : nat) (p : CSVParser) :
  rebase b i (rebase b' i' p) = rebase b i p.
Proof. reflexivity. Qed.

Lemma rebase_self (p : CSVParser) : rebase (buffer p) (bufferIndex p) p = p.
Proof. by destruct p. Qed.

Section Rebase.
Context {W : Type}.
Variable options : CSVParseOptions.
Variable so : CSVStreamOptions W.
Hypothesis so_wellBehaved : wellBehaved so.

(** [endRow] neither reads nor writes the buffer. *)
Lemma endRow_rebase (p : CSVParser) (w : W) (b : string) (i : nat) :
  endRow options so (rebase b i p, w)
  = (rebase b i (fst (endRow options so (p, w))),
     snd (endRow options so (p, w))).
Proof.
  destruct (callOnHeaders_wellBehaved so so_wellBehaved) as [g Hg].
  destruct p as [buf ln col q fld row hd errs ri bi].
  unfold endRow, rebase. cbn -[callOnHeaders].
  destruct (skipEmptyLines options && _ && _); [done|].
  destruct (headersOption options) as [[|]|names], hd as [hs|]; try done.
  - by rewrite !Hg.
  - by rewrite !Hg.
Qed.

(** [processCharacter] depends on the buffer through the two lookahead
    tests only: with another buffer on which both tests have the same
    outcome, it does the same thing. *)
Lemma processCharacter_rebase (c : ascii) (p : CSVParser) (w : W)
    (b b' : string) (i i' : nat) :
  escapeLookahead options c (String.get (S i') b') = escapeLookahead options c (String.get (S i) b) →
  crlfLookahead c (String.get (S i') b') = crlfLookahead c (String.get (S i) b) →
  processCharacter options so c (rebase b' i' p, w)
  = (rebase b'
       (i' + (bufferIndex (fst (processCharacter options so c (rebase b i p, w))) - i))
       (fst (processCharacter options so c (rebase b i p, w))),
     snd (processCharacter options so c (rebase b i p, w))).
Proof.
  unfold escapeLookahead, crlfLookahead. intros He Hr.
  unfold processCharacter.
  change (buffer (rebase b' i' p)) with b'.
  change (bufferIndex (rebase b' i' p)) with i'.
  change (buffer (rebase b i p)) with b.
  change (bufferIndex (rebase b i p)) with i.
  change (inQuotes (rebase b' i' p)) with (inQuotes p).
  change (inQuotes (rebase b i p)) with (inQuotes p).
  change (currentField (rebase b' i' p)) with (currentField p).
  change (currentField (rebase b i p)) with (currentField p).
  destruct (inQuotes p).
  - rewrite He. clear He Hr.
    destruct (charIs c (escape options) && _).
    { destruct p; record_eq. }
    destruct (charIs c (quote options)).
    all: destruct p; record_eq.
  - destruct (charIs c (quote options)).
    { destruct (0 <? _).
      all: destruct p; record_eq. }
    destruct (charIs c (delimiter options)).
    { destruct p; record_eq. }
    destruct (bool_decide (c = LF) || bool_decide (c = CR)).
    2: { destruct p; record_eq. }
    rewrite Hr. clear He Hr. destruct (bool_decide (c = CR) && _).
    + change (setBufferIndex (S i') (rebase b' i' p)) with (rebase b' (S i') p).
      change (setBufferIndex (S i) (rebase b i p)) with (rebase b (S i) p).
      rewrite !endRow_rebase.
      destruct (endRow options so (p, w)) as [[] ?].
      record_eq.
    + rewrite !endRow_rebase.
      destruct (endRow options so (p, w)) as [[] ?].
      record_eq.
Qed.

(** [processCharacter] keeps the buffer, and moves the index by one
    position at most, which it only does when a lookahead test held. *)
Lemma processCharacter_index (c : ascii) (p : CSVParser) (w : W) :
  let p1 := fst (processCharacter options so c (p, w)) in
  buffer p1 = buffer p
  ∧ (bufferIndex p1 = bufferIndex p
     ∨ (bufferIndex p1 = S (bufferIndex p)
        ∧ (escapeLookahead options c (String.get (S (bufferIndex p)) (buffer p)) = true
           ∨ crlfLookahead c (String.get (S (bufferIndex p)) (buffer p)) = true))).
Proof.
  unfold escapeLookahead, crlfLookahead, processCharacter.
  destruct (inQuotes p).
  - destruct (charIs c (escape options) && _); [cbn; auto|].
    destruct (charIs c (quote options)); cbn; auto.
  - destruct (charIs c (quote options)).
    { destruct (0 <? _); cbn; auto. }
    destruct (charIs c (delimiter options)); [cbn; auto|].
    destruct (bool_decide (c = LF) || bool_decide (c = CR)); [|cbn; auto].
    destruct (bool_decide (c = CR) && _).
    + pose proof (endRow_frame options so
                    (setBufferIndex (S (bufferIndex p)) p) w so_wellBehaved)
        as (Hb & Hi & _).
      cbn zeta. rewrite Hb, Hi. destruct p. cbn. auto.
    + pose proof (endRow_frame options so p w so_wellBehaved) as (Hb & Hi & _).
      cbn zeta. rewrite Hb, Hi. auto.
Qed.

(** *** Fuel *)

(** Any amount of fuel that covers the characters left gives the same
    result. *)
Lemma processLoop_fuel (f1 f2 : nat) (pw : CSVParser * W) :
  String.length (buffer (fst pw)) - bufferIndex (fst pw) ≤ f1 →
  String.length (buffer (fst pw)) - bufferIndex (fst pw) ≤ f2 →
  processLoop options so f1 pw = processLoop options so f2 pw.
Proof.
  revert f2 pw. induction f1 as [|f1 IH]; intros f2 pw H1 H2.
  { symmetry. apply (processLoop_done options so f2 pw). lia. }
  destruct f2 as [|f2].
  { apply (processLoop_done options so (S f1) pw). lia. }
  destruct (String.get (bufferIndex (fst pw)) (buffer (fst pw))) as [c|] eqn:Hc.
  - rewrite !(processLoop_step _ _ _ _ _ Hc).
    destruct pw as [p w].
    pose proof (processCharacter_index c p w) as [Hb Hi]. cbn [fst] in *.
    apply IH; cbn [fst bufferIndex buffer setBufferIndex];
      destruct (processCharacter options so c (p, w)) as [[] ?];
      cbn in *; subst; lia.
  - apply get_None_ge in Hc. by rewrite !processLoop_done.
Qed.

(** The fuel [processChunk] provides reaches the exit of the loop: the
    loop condition is false in the state returned, and the buffer is the
    one the loop started with. *)
Lemma processLoop_exit (fuel : nat) (pw : CSVParser * W) :
  String.length (buffer (fst pw)) - bufferIndex (fst pw) ≤ fuel →
  let p' := fst (processLoop options so fuel pw) in
  buffer p' = buffer (fst pw) ∧ String.length (buffer p') ≤ bufferIndex p'.
Proof.
  revert pw. induction fuel as [|fuel IH]; intros pw Hf.
  { rewrite processLoop_done by lia. cbn zeta. split; [done|lia]. }
  destruct (String.get (bufferIndex (fst pw)) (buffer (fst pw))) as [c|] eqn:Hc.
  - rewrite (processLoop_step _ _ _ _ _ Hc).
    destruct pw as [p w].
    pose proof (processCharacter_index c p w) as [Hb Hi]. cbn [fst] in *.
    destruct (processCharacter options so c (p, w)) as [p1 w1] eqn:Hp1.
    cbn [fst snd] in *.
    destruct (IH (setBufferIndex (S (bufferIndex p1)) p1, w1)) as [Hb' Hlen].
    { destruct p1. cbn in *. subst. lia. }
    cbn zeta. split; [|done]. rewrite Hb'. by destruct p1.
  - apply get_None_ge in Hc. rewrite processLoop_done by done.
    cbn zeta. split; [done|lia].
Qed.

Lemma run_done (pw : CSVParser * W) :
  String.length (buffer (fst pw)) ≤ bufferIndex (fst pw) → run options so pw = pw.
Proof. intros H. unfold run. by rewrite processLoop_done. Qed.

Lemma run_step (b : string) (i : nat) (p : CSVParser) (w : W) (c : ascii) :
  String.get i b = Some c →
  run options so (rebase b i p, w)
  = run options so (rebase b
           (S (bufferIndex (fst (processCharacter options so c (rebase b i p, w)))))
           (fst (processCharacter options so c (rebase b i p, w))),
         snd (processCharacter options so c (rebase b i p, w))).
Proof.
  intros Hc. pose proof (get_Some_lt _ _ _ Hc) as Hlt.
  pose proof (processCharacter_index c (rebase b i p) w) as [Hb Hi].
  cbn [buffer bufferIndex rebase setBufferIndex setBuffer] in Hb, Hi.
  unfold run at 1. cbn [fst buffer bufferIndex rebase setBufferIndex setBuffer].
  destruct (String.length b - i) as [|k] eqn:Hk; [lia|].
  rewrite (processLoop_step options so k (rebase b i p, w) c Hc).
  destruct (processCharacter options so c (rebase b i p, w)) as [p1 w1].
  cbn [fst snd] in *.
  replace (setBufferIndex (S (bufferIndex p1)) p1)
    with (rebase b (S (bufferIndex p1)) p1)
    by (destruct p1; cbn in *; by subst).
  apply processLoop_fuel; cbn; lia.
Qed.
End Rebase.

(** ** Chunk boundaries

    A boundary between the text [b1] written so far and the next chunk [b2]
    is safe when it does not separate an escape character from a quote
    character, nor a carriage return from a line feed. *)

Section Chunks.
Context {W : Type}.
Variable options : CSVParseOptions.
Variable so : CSVStreamOptions W.
Hypothesis so_wellBehaved : wellBehaved so.
Variables b1 b2 : string.

Let B := b1 +:+ b2.
Let n1 := String.length b1.

(** Over the first part of the buffer the loop does what it does on that
    part alone, when the boundary is safe. *)
Lemma run_prefix (m i : nat) (p : CSVParser) (w : W) :
  safeBoundary options b1 b2 = true →
  n1 - i ≤ m → i ≤ n1 →
  run options so (rebase B i p, w)
  = run options so
      (rebase B n1 (fst (run options so (rebase b1 i p, w))),
       snd (run options so (rebase b1 i p, w))).
Proof.
  intros Hsafe. revert i p w.
  induction m as [|m IH]; intros i p w Hm Hi.
  { rewrite (run_done options so (rebase b1 i p, w)) by (cbn; lia).
    cbn [fst snd]. rewrite rebase_rebase. by replace i with n1 by lia. }
  destruct (decide (i = n1)) as [->|Hne].
  { rewrite (run_done options so (rebase b1 n1 p, w)) by (cbn; lia).
    cbn [fst snd]. by rewrite rebase_rebase. }
  assert (Hlt : i < n1) by lia.
  destruct (String.get i b1) as [c|] eqn:Hc;
    [|apply get_None_ge in Hc; unfold n1 in *; lia].
  assert (HcB : String.get i B = Some c).
  { unfold B. by rewrite string_get_app_l. }
  rewrite (run_step options so so_wellBehaved B i p w c HcB).
  rewrite (run_step options so so_wellBehaved b1 i p w c Hc).
  assert (Hlook :
    escapeLookahead options c (String.get (S i) B)
    = escapeLookahead options c (String.get (S i) b1)
    ∧ crlfLookahead c (String.get (S i) B)
      = crlfLookahead c (String.get (S i) b1)).
  { destruct (decide (S i < n1)) as [Hlt'|Hge].
    - unfold B. by rewrite string_get_app_l.
    - assert (HSi : S i = n1 + 0) by lia.
      assert (Hnone : String.get (S i) b1 = None)
        by (apply get_None_ge; unfold n1 in *; lia).
      rewrite Hnone. unfold B. rewrite HSi. unfold n1. rewrite string_get_app_r.
      unfold safeBoundary in Hsafe.
      replace (String.length b1 - 1) with i in Hsafe by (unfold n1 in *; lia).
      rewrite Hc in Hsafe.
      unfold escapeLookahead, crlfLookahead.
      destruct (String.get 0 b2) as [f|]; [|done]. cbn [nextIs].
      apply andb_prop in Hsafe as [He Hr].
      apply negb_true_iff in He, Hr. rewrite He, Hr.
      by rewrite !andb_false_r. }
  destruct Hlook as [He Hr].
  rewrite (processCharacter_rebase options so so_wellBehaved c p w b1 B i i He Hr).
  pose proof (processCharacter_index options so so_wellBehaved c
                (rebase b1 i p) w) as [Hb Hidx].
  cbn [buffer bufferIndex rebase setBufferIndex setBuffer] in Hb, Hidx.
  destruct (processCharacter options so c (rebase b1 i p, w)) as [p1 w1].
  cbn [fst snd] in *.
  change (bufferIndex (rebase B (i + (bufferIndex p1 - i)) p1))
    with (i + (bufferIndex p1 - i)).
  rewrite !rebase_rebase.
  replace (i + (bufferIndex p1 - i)) with (bufferIndex p1) by lia.
  apply IH.
  - lia.
  - destruct Hidx as [->|[-> Htrue]]; [lia|].
    destruct (String.get (S i) b1) eqn:Hn.
    + apply get_Some_lt in Hn. unfold n1. lia.
    + unfold escapeLookahead, crlfLookahead in Htrue. cbn [nextIs] in Htrue.
      rewrite !andb_false_r in Htrue. by destruct Htrue.
Qed.

(** Over the second part of the buffer the loop does what it does on that
    part alone, at shifted positions. *)
Lemma run_suffix (m j : nat) (p : CSVParser) (w : W) :
  String.length b2 - j ≤ m →
  run options so (rebase B (n1 + j) p, w)
  = (rebase B (n1 + bufferIndex (fst (run options so (rebase b2 j p, w))))
       (fst (run options so (rebase b2 j p, w))),
     snd (run options so (rebase b2 j p, w))).
Proof.
  revert j p w. induction m as [|m IH]; intros j p w Hm.
  { rewrite !run_done; [done|cbn; lia|].
    cbn. unfold B. rewrite string_length_app. unfold n1. lia. }
  destruct (String.get j b2) as [c|] eqn:Hc.
  2: { apply get_None_ge in Hc. rewrite !run_done; [done|cbn; lia|].
       cbn. unfold B. rewrite string_length_app. unfold n1. lia. }
  assert (HcB : String.get (n1 + j) B = Some c).
  { unfold B, n1. by rewrite string_get_app_r. }
  rewrite (run_step options so so_wellBehaved B (n1 + j) p w c HcB).
  rewrite (run_step options so so_wellBehaved b2 j p w c Hc).
  assert (Hnext : String.get (S (n1 + j)) B = String.get (S j) b2).
  { rewrite <- Nat.add_succ_r. unfold B, n1. by rewrite string_get_app_r. }
  rewrite (processCharacter_rebase options so so_wellBehaved c p w b2 B j (n1 + j))
    by (by rewrite Hnext).
  pose proof (processCharacter_index options so so_wellBehaved c
                (rebase b2 j p) w) as [Hb Hidx].
  cbn [buffer bufferIndex rebase setBufferIndex setBuffer] in Hb, Hidx.
  destruct (processCharacter options so c (rebase b2 j p, w)) as [p2 w2].
  cbn [fst snd] in *.
  change (bufferIndex (rebase B (n1 + j + (bufferIndex p2 - j)) p2))
    with (n1 + j + (bufferIndex p2 - j)).
  rewrite !rebase_rebase.
  replace (S (n1 + j + (bufferIndex p2 - j))) with (n1 + S (bufferIndex p2)) by lia.
  apply IH. lia.
Qed.

(** [processChunk] on an instance whose buffer is empty, as it is between
    two calls. *)
Lemma processChunk_run (chunk : string) (p : CSVParser) (w : W) :
  buffer p = EmptyString →
  processChunk options so chunk (p, w)
  = (rebase EmptyString 0 (fst (run options so (rebase chunk 0 p, w))),
     snd (run options so (rebase chunk 0 p, w))).
Proof.
  intros Hb. unfold processChunk, run. rewrite Hb, string_app_empty_l.
  cbn [fst buffer bufferIndex rebase setBufferIndex setBuffer].
  rewrite Nat.sub_0_r.
  change (setBufferIndex 0 (setBuffer chunk p)) with (rebase chunk 0 p).
  by destruct (processLoop options so (String.length chunk) (rebase chunk 0 p, w)).
Qed.

(** Writing [b1] then [b2] is writing [b1 +:+ b2], across a safe
    boundary. *)
Lemma processChunk_app (p : CSVParser) (w : W) :
  buffer p = EmptyString →
  safeBoundary options b1 b2 = true →
  processChunk options so B (p, w)
  = processChunk options so b2 (processChunk options so b1 (p, w)).
Proof.
  intros Hb Hsafe.
  rewrite (processChunk_run b1 p w Hb), (processChunk_run B p w Hb).
  rewrite processChunk_run by done. rewrite rebase_rebase.
  rewrite (run_prefix n1 0 p w Hsafe) by lia.
  pose proof (run_suffix (String.length b2) 0
                (fst (run options so (rebase b1 0 p, w)))
                (snd (run options so (rebase b1 0 p, w)))) as Hs.
  rewrite Nat.add_0_r in Hs. rewrite Hs by lia.
  cbn [fst snd]. by rewrite rebase_rebase.
Qed.
End Chunks.

(** ** The trailing row *)

Lemma finalize_afterFlush {W} (options : CSVParseOptions)
    (so : CSVStreamOptions W) (pw : CSVParser * W) :
  finalize options so pw
  = afterFlush so (if pending (fst pw) then endRow options so pw else pw).
Proof.
  unfold finalize, afterFlush, pending.
  by destruct (if _ || _ then _ else _).
Qed.

(** Writing a chunk that holds one line feed, outside quoted mode, is
    [endRow]. *)
Lemma processChunk_newline {W} (options : CSVParseOptions)
    (so : CSVStreamOptions W) (p : CSVParser) (w : W) :
  wellBehaved so →
  buffer p = EmptyString → bufferIndex p = 0 →
  inQuotes p = false →
  quote options ≠ NL → delimiter options ≠ NL →
  processChunk options so NL (p, w) = endRow options so (p, w).
Proof.
  intros Hwb Hb Hi Hq Hquote Hdelim. unfold NL in Hquote, Hdelim.
  rewrite (processChunk_run options so NL p w Hb).
  assert (Hstep : processCharacter options so LF (rebase NL 0 p, w)
                  = endRow options so (rebase NL 0 p, w)).
  { unfold processCharacter.
    change (inQuotes (rebase NL 0 p)) with (inQuotes p). rewrite Hq.
    assert (charIs LF (quote options) = false) as ->
      by (apply charIs_false; congruence).
    assert (charIs LF (delimiter options) = false) as ->
      by (apply charIs_false; congruence).
    done. }
  rewrite (run_step options so Hwb NL 0 p w LF eq_refl), Hstep.
  rewrite (endRow_rebase options so Hwb p w NL 0). cbn [fst snd].
  rewrite run_done by (cbn; lia). cbn [fst snd]. rewrite rebase_rebase.
  pose proof (endRow_frame options so p w Hwb) as (Hb' & Hi' & _).
  destruct (endRow options so (p, w)) as [p1 w1]. cbn [fst snd] in *.
  rewrite <- (rebase_self p1) at 2. by rewrite Hb', Hi', Hb, Hi.
Qed.

(** [processChunk] leaves the buffer empty and the index at 0. *)
Lemma processChunk_buffer {W} (options : CSVParseOptions)
    (so : CSVStreamOptions W) (chunk : string) (pw : CSVParser * W) :
  buffer (fst (processChunk options so chunk pw)) = EmptyString
  ∧ bufferIndex (fst (processChunk options so chunk pw)) = 0.
Proof.
  unfold processChunk. destruct pw as [p w].
  by destruct (processLoop _ _ _ _).
Qed.

(** C4, as the code has it.  At end of input, when the current field has
    text or the current row already holds a field, [finalize] closes the
    field and the row exactly as a line terminator would: it runs [endRow],
    and outside quoted mode that is what writing one more line feed does; a
    parse of an input that ends so yields the result of the parse of the
    input with a final line feed.  The trailing row of an input without a
    final newline is emitted, also when its last field is an empty quoted
    field that follows a completed field. *)
Theorem finalize_flushes_pending_row :
  (∀ (W : Type) (options : CSVParseOptions) (so : CSVStreamOptions W)
     (p : CSVParser) (w : W),
     pending p = true →
     finalize options so (p, w) = afterFlush so (endRow options so (p, w)))
  ∧ (∀ (W : Type) (options : CSVParseOptions) (so : CSVStreamOptions W)
       (p : CSVParser) (w : W),
       wellBehaved so →
       buffer p = EmptyString → bufferIndex p = 0 →
       pending p = true → inQuotes p = false →
       quote options ≠ NL → delimiter options ≠ NL →
       finalize options so (p, w)
       = finalize options so (write options so NL (p, w)))
  ∧ (∀ (options : CSVParseOptions) (input : string),
       let p := fst (processChunk options parseCallbacks input (newParser, [])) in
       pending p = true → inQuotes p = false →
       quote options ≠ NL → delimiter options ≠ NL →
       String.get (String.length input - 1) input ≠ Some CR →
       parseFresh options input = parseFresh options (input +:+ NL))
  ∧ rows (parseFresh defaultOptions trailingRowInput)
    = [RowArray ["a"; "b"]; RowArray ["c"; "d"]]
  ∧ rows (parseFresh defaultOptions trailingEmptyQuotedInput)
    = [RowArray ["a"; EmptyString]].
Proof.
  assert (Hflush : ∀ (W : Type) (options : CSVParseOptions)
            (so : CSVStreamOptions W) (p : CSVParser) (w : W),
            wellBehaved so →
            buffer p = EmptyString → bufferIndex p = 0 →
            pending p = true → inQuotes p = false →
            quote options ≠ NL → delimiter options ≠ NL →
            finalize options so (p, w)
            = finalize options so (write options so NL (p, w))).
  { intros W options so p w Hwb Hb Hi Hp Hq Hquote Hdelim.
    unfold write. rewrite processChunk_newline by done.
    rewrite !finalize_afterFlush. cbn [fst]. rewrite Hp.
    pose proof (endRow_frame options so p w Hwb) as (_ & _ & _ & _ & _ & _ & Hr & Hf).
    unfold pending. rewrite Hr, Hf. done. }
  split_and!; [| exact Hflush | | by vm_compute | by vm_compute].
  - intros W options so p w Hp. rewrite finalize_afterFlush. cbn [fst].
    by rewrite Hp.
  - intros options input p Hp Hq Hquote Hdelim Hcr.
    assert (Hquote' := Hquote). unfold NL in Hquote'.
    unfold parseFresh, parse. change (reset newParser) with newParser.
    assert (Hsafe : safeBoundary options input NL = true).
    { unfold safeBoundary.
      destruct (String.get (String.length input - 1) input) as [l|]; [|done].
      cbn [String.get NL str1].
      assert (charIs LF (quote options) = false) as ->
        by (apply charIs_false; congruence).
      rewrite andb_false_r. cbn [negb andb].
      apply negb_true_iff, andb_false_iff. left.
      apply bool_decide_eq_false. congruence. }
    rewrite (processChunk_app options parseCallbacks parseCallbacks_wellBehaved
               input NL newParser [] eq_refl Hsafe).
    pose proof (processChunk_buffer options parseCallbacks input (newParser, []))
      as [Hb Hi].
    destruct (processChunk options parseCallbacks input (newParser, []))
      as [p0 rows0] eqn:Hp0.
    cbn [fst] in *. subst p.
    by rewrite (Hflush _ options parseCallbacks p0 rows0
                  parseCallbacks_wellBehaved Hb Hi Hp Hq Hquote Hdelim).
Qed.

Lemma finalize_flushes_pending_row_witness :
  parseFresh defaultOptions trailingEmptyQuotedInput
  = parseFresh defaultOptions (trailingEmptyQuotedInput +:+ NL).
Proof.
  destruct finalize_flushes_pending_row as (_ & _ & H & _).
  apply (H defaultOptions trailingEmptyQuotedInput); by vm_compute.
Defined.

(** C4, as stated, fails: a final line that consists of an empty quoted
    field alone leaves nothing pending, so with [skipEmptyLines: false] no
    row is emitted for it, although the same line followed by a line feed
    yields the row holding one empty field. *)
Lemma lone_empty_quoted_field_not_flushed :
  rows (parseFresh (withSkipEmptyLines false defaultOptions) (Q +:+ Q)) = []
  ∧ rows (parseFresh (withSkipEmptyLines false defaultOptions) (Q +:+ Q +:+ NL))
    = [RowArray [EmptyString]]
  ∧ pending (fst (processChunk (withSkipEmptyLines false defaultOptions)
                    parseCallbacks (Q +:+ Q) (newParser, []))) = false.
Proof. by vm_compute. Qed.

(** ** Chunk invariance *)

(** C1 at the inputs where the code departs from it.  A session fed the
    quoted field in two chunks, cut between the escape character and the
    quote that follows it, does not report what [parse] returns on the
    whole: the lookahead finds nothing after the last character of the
    buffer, takes the escape for the closing quote, and the next chunk
    then starts with an unexpected quote.  Likewise a carriage return at
    the end of a chunk and the line feed at the start of the next are
    taken for two terminators.  The same inputs written as one chunk, and
    the split of the text A,B / C,D into three chunks, agree with
    [parse]. *)
Theorem chunk_split_at_lookahead_diverges :
  parseFresh defaultOptions doubledQuoteInput
  = {| result_headers := None;
       rows := [RowArray ["a" +:+ Q +:+ "b"]];
       result_errors := [] |}
  ∧ streamFresh defaultOptions [doubledQuoteInput]
    = [RowNotified (RowArray ["a" +:+ Q +:+ "b"]) 0; EndNotified 1 []]
  ∧ streamFresh defaultOptions [Q +:+ "a" +:+ Q; Q +:+ "b" +:+ Q]
    = [RowNotified (RowArray ["a" +:+ Q +:+ "b" +:+ Q]) 0;
       EndNotified 1 [mkError 1 4 "Unexpected quote character";
                      mkError 1 6 "Unexpected quote character"]]
  ∧ rows (parseFresh (withSkipEmptyLines false defaultOptions)
            ("a" +:+ str1 CR +:+ NL +:+ "b"))
    = [RowArray ["a"]; RowArray ["b"]]
  ∧ streamFresh (withSkipEmptyLines false defaultOptions)
      ["a" +:+ str1 CR; NL +:+ "b"]
    = [RowNotified (RowArray ["a"]) 0; RowNotified (RowArray [EmptyString]) 1;
       RowNotified (RowArray ["b"]) 2; EndNotified 3 []]
  ∧ streamFresh defaultOptions ["A,"; "B" +:+ NL +:+ "C"; ",D"]
    = streamFresh defaultOptions ["A,B" +:+ NL +:+ "C,D"].
Proof. by vm_compute. Qed.

(** *** Safe boundaries: writing in chunks is writing the whole *)

Lemma processChunk_empty {W} (options : CSVParseOptions)
    (so : CSVStreamOptions W) (p : CSVParser) (w : W) :
  buffer p = EmptyString → bufferIndex p = 0 →
  processChunk options so EmptyString (p, w) = (p, w).
Proof.
  intros Hb Hi. unfold processChunk. rewrite Hb. cbn.
  destruct p. cbn in *. by subst.
Qed.

Lemma writes_joined {W} (options : CSVParseOptions) (so : CSVStreamOptions W)
    (chunks : list string) (written : string) (p : CSVParser) (w : W) :
  wellBehaved so →
  buffer p = EmptyString →
  safeChunks options written chunks = true →
  foldl (λ acc chunk, write options so chunk acc)
    (processChunk options so written (p, w)) chunks
  = processChunk options so (written +:+ joined chunks) (p, w).
Proof.
  intros Hwb Hb. revert written.
  induction chunks as [|c cs IH]; intros written Hsafe.
  { cbn. by rewrite string_app_empty_r. }
  cbn [safeChunks] in Hsafe. apply andb_prop in Hsafe as [Hc Hcs].
  cbn [foldl joined foldr]. unfold write at 2.
  rewrite <- (processChunk_app options so Hwb written c p w Hb Hc).
  rewrite (IH _ Hcs). by rewrite string_app_assoc.
Qed.

(** A session fed chunks whose boundaries are all safe is the session fed
    the whole text in one [write]. *)
Lemma runSession_joined {W} (options : CSVParseOptions)
    (so : CSVStreamOptions W) (chunks : list string) (pw : CSVParser * W) :
  wellBehaved so →
  safeChunks options EmptyString chunks = true →
  runSession options so chunks pw = runSession options so [joined chunks] pw.
Proof.
  intros Hwb Hsafe. unfold runSession, end_, parseStream. f_equal.
  pose proof (writes_joined options so chunks EmptyString
                (reset (fst pw)) (snd pw) Hwb eq_refl Hsafe) as H.
  rewrite (processChunk_empty options so (reset (fst pw)) (snd pw)) in H
    by done.
  by rewrite string_app_empty_l in H.
Qed.

(** *** What a recording caller sees, against the result of [parse] *)

Section Recording.
Variable options : CSVParseOptions.

Lemma logRel_emitRow (A : CSVParser * list Row)
    (B : CSVParser * list Notification) :
  logRel A B →
  logRel (emitRow parseCallbacks A) (emitRow recordingCallbacks B).
Proof.
  destruct A as [p rs], B as [p' log]. intros (Hp & Hr & Hi & Hh & He).
  cbn [fst snd] in *. subst p'. unfold emitRow, logRel. cbn.
  unfold notifiedRows, notifiedHeaders, notifiedEnds, numbered in *.
  rewrite !omap_app, imap_app, Hr, Hh, He, Hi, length_app. cbn.
  rewrite Nat.add_0_r, ?app_nil_r. split_and!; try done; lia.
Qed.

Lemma logRel_callOnHeaders (hs : list string) (p : CSVParser)
    (rs : list Row) (log : list Notification) :
  logRel (p, rs) (p, log) →
  headers p = None →
  logRel (callOnHeaders parseCallbacks hs (setHeaders (Some hs) p, rs))
         (callOnHeaders recordingCallbacks hs (setHeaders (Some hs) p, log)).
Proof.
  intros (_ & Hr & Hi & Hh & He) Hnone. cbn [fst snd] in *.
  rewrite Hnone in Hh.
  unfold callOnHeaders.
  cbn [onHeaders parseCallbacks recordingCallbacks fst snd].
  unfold logRel. cbn [fst snd].
  unfold notifiedRows, notifiedHeaders, notifiedEnds in *.
  rewrite !omap_app, Hr, Hh, He. cbn. rewrite ?app_nil_r.
  by split_and!.
Qed.

Lemma logRel_endRow (A : CSVParser * list Row)
    (B : CSVParser * list Notification) :
  logRel A B →
  logRel (endRow options parseCallbacks A)
         (endRow options recordingCallbacks B).
Proof.
  intros HR.
  assert (Hreset : ∀ A' B', logRel A' B' →
            logRel (resetRow (fst A'), snd A') (resetRow (fst B'), snd B')).
  { intros [p rs] [p' log] (Hp & Hr & Hi & Hh & He). cbn [fst snd] in *.
    subst p'. by split_and!. }
  destruct A as [p rs], B as [p' log].
  assert (p' = p) as -> by (by destruct HR).
  unfold endRow.
  destruct (skipEmptyLines options && _ && _).
  { apply (Hreset (pushField p, rs) (pushField p, log)).
    destruct HR as (_ & Hr & Hi & Hh & He). by split_and!. }
  apply Hreset.
  destruct HR as (_ & Hr & Hi & Hh & He). cbn [fst snd] in *.
  destruct (headersOption options) as [[|]|names],
           (headers (pushField p)) as [hs|] eqn:Hhs.
  all: try (apply logRel_emitRow; split_and!; done).
  - apply logRel_callOnHeaders; [by split_and!|done].
  - apply logRel_emitRow, logRel_callOnHeaders; [by split_and!|done].
Qed.

Lemma logRel_processCharacter (c : ascii) (A : CSVParser * list Row)
    (B : CSVParser * list Notification) :
  logRel A B →
  logRel (processCharacter options parseCallbacks c A)
         (processCharacter options recordingCallbacks c B).
Proof.
  intros HR. destruct A as [p rs], B as [p' log].
  assert (p' = p) as -> by (by destruct HR).
  assert (Hsame : ∀ f : CSVParser → CSVParser,
            (∀ q, rowIndex (f q) = rowIndex q ∧ headers (f q) = headers q) →
            logRel (f p, rs) (f p, log)).
  { intros f Hf. destruct HR as (_ & Hr & Hi & Hh & He).
    destruct (Hf p) as [Hfi Hfh]. unfold logRel. cbn [fst snd] in *.
    by rewrite Hfi, Hfh. }
  unfold processCharacter.
  destruct (inQuotes p).
  - destruct (charIs c (escape options) && _);
      [apply (Hsame (λ q, setBufferIndex _ (setField _ _ q))); by intros []|].
    destruct (charIs c (quote options)).
    + apply (Hsame (λ q, setInQuotes _ _ q)); by intros [].
    + apply (Hsame (λ q, setField _ _ q)); by intros [].
  - destruct (charIs c (quote options)).
    { destruct (0 <? _).
      - apply (Hsame (λ q, setField (currentField (addError _ q) +:+ _)
                             (S (currentColumn (addError _ q)))
                             (addError _ q))); by intros [].
      - apply (Hsame (λ q, setInQuotes _ _ q)); by intros []. }
    destruct (charIs c (delimiter options)).
    { apply (Hsame (λ q, setField _ _ (pushField q))); by intros []. }
    destruct (bool_decide (c = LF) || bool_decide (c = CR)).
    2: { apply (Hsame (λ q, setField _ _ q)); by intros []. }
    apply logRel_endRow.
    destruct (bool_decide (c = CR) && _).
    + apply (Hsame (λ q, setBufferIndex _ q)); by intros [].
    + done.
Qed.

Lemma logRel_processLoop (fuel : nat) (A : CSVParser * list Row)
    (B : CSVParser * list Notification) :
  logRel A B →
  logRel (processLoop options parseCallbacks fuel A)
         (processLoop options recordingCallbacks fuel B).
Proof.
  revert A B. induction fuel as [|fuel IH]; intros A B HR; [done|].
  cbn [processLoop].
  assert (Hp : fst B = fst A) by (by destruct HR). rewrite Hp.
  destruct (_ <? _); [|done].
  destruct (String.get _ _) as [c|]; [|done].
  pose proof (logRel_processCharacter c A B HR) as HR'.
  destruct (processCharacter options parseCallbacks c A) as [pA rs].
  destruct (processCharacter options recordingCallbacks c B) as [pB log].
  apply IH. destruct HR' as (Hp' & Hr & Hi & Hh & He). cbn [fst snd] in *.
  subst pB. by split_and!.
Qed.

Lemma logRel_processChunk (chunk : string) (A : CSVParser * list Row)
    (B : CSVParser * list Notification) :
  logRel A B →
  logRel (processChunk options parseCallbacks chunk A)
         (processChunk options recordingCallbacks chunk B).
Proof.
  intros HR. destruct A as [p rs], B as [p' log].
  assert (p' = p) as -> by (by destruct HR).
  unfold processChunk.
  pose proof (logRel_processLoop
                (String.length (buffer (setBufferIndex 0
                   (setBuffer (buffer p +:+ chunk) p))))
                (setBufferIndex 0 (setBuffer (buffer p +:+ chunk) p), rs)
                (setBufferIndex 0 (setBuffer (buffer p +:+ chunk) p), log))
    as HR'.
  destruct (processLoop options parseCallbacks _ _) as [pA rs'].
  destruct (processLoop options recordingCallbacks _ _) as [pB log'].
  destruct HR' as (Hp' & Hr & Hi & Hh & He).
  { destruct HR as (_ & Hr & Hi & Hh & He). by split_and!. }
  cbn [fst snd] in *. subst pB. by split_and!.
Qed.

(** After [end], the recording caller has seen the rows of [parse] with
    their positions, the header if one was resolved, and one end
    notification carrying the number of rows and the diagnostics. *)
Lemma logRel_finalize (A : CSVParser * list Row)
    (B : CSVParser * list Notification) :
  logRel A B →
  let A' := finalize options parseCallbacks A in
  let B' := finalize options recordingCallbacks B in
  notifiedRows (snd B') = numbered (snd A')
  ∧ notifiedHeaders (snd B') = option_list (headers (fst A'))
  ∧ notifiedEnds (snd B') = [(length (snd A'), errors (fst A'))].
Proof.
  intros HR A' B'. subst A' B'. rewrite !finalize_afterFlush.
  assert (Hp : fst B = fst A) by (by destruct HR). rewrite Hp.
  assert (HR' : logRel
            (if pending (fst A) then endRow options parseCallbacks A else A)
            (if pending (fst A) then endRow options recordingCallbacks B else B)).
  { destruct (pending (fst A)); [by apply logRel_endRow|done]. }
  destruct (if pending (fst A) then endRow options parseCallbacks A else A)
    as [pA rs].
  destruct (if pending (fst A) then endRow options recordingCallbacks B else B)
    as [pB log].
  destruct HR' as (Hp' & Hr & Hi & Hh & He). cbn [fst snd] in *. subst pB.
  unfold afterFlush. cbn [fst snd onEnd recordingCallbacks parseCallbacks].
  unfold notifiedRows, notifiedHeaders, notifiedEnds in *.
  rewrite !omap_app, Hr, Hh, He. cbn. rewrite !app_nil_r.
  destruct (inQuotes pA); cbn; by rewrite Hi.
Qed.
End Recording.

(** Chunk invariance where it holds: a session fed chunks whose boundaries
    are all safe reports, to a recording caller, the rows of the one-shot
    [parse] of the whole text with their positions, its header, its
    diagnostics and its number of rows. *)
Lemma stream_agrees_with_parse_across_safe_boundaries
    (options : CSVParseOptions) (chunks : list string) :
  safeChunks options EmptyString chunks = true →
  notifiedRows (streamFresh options chunks)
  = numbered (rows (parseFresh options (joined chunks)))
  ∧ notifiedHeaders (streamFresh options chunks)
    = option_list (result_headers (parseFresh options (joined chunks)))
  ∧ notifiedEnds (streamFresh options chunks)
    = [(length (rows (parseFresh options (joined chunks))),
        result_errors (parseFresh options (joined chunks)))].
Proof.
  intros Hsafe. unfold streamFresh.
  rewrite (runSession_joined options recordingCallbacks chunks _
             recordingCallbacks_wellBehaved Hsafe).
  unfold runSession, end_, parseStream, write, parseFresh, parse. cbn [foldl fst snd].
  change (reset newParser) with newParser.
  pose proof (logRel_finalize options
                (processChunk options parseCallbacks (joined chunks) (newParser, []))
                (processChunk options recordingCallbacks (joined chunks) (newParser, [])))
    as H.
  cbv zeta in H.
  destruct (finalize options parseCallbacks
              (processChunk options parseCallbacks (joined chunks) (newParser, [])))
    as [p2 rows2].
  apply H. apply logRel_processChunk. by split_and!.
Qed.

(** ** The repository's own tests, replayed on the embedding *)

Example test_simple_without_headers :
  parseFresh defaultOptions
    ("John,25,New York" +:+ NL +:+ "Jane,30,Los Angeles" +:+ NL +:+ "Bob,35,Chicago")
  = {| result_headers := None;
       rows := [RowArray ["John"; "25"; "New York"];
                RowArray ["Jane"; "30"; "Los Angeles"];
                RowArray ["Bob"; "35"; "Chicago"]];
       result_errors := [] |}.
Proof. by vm_compute. Qed.

Example test_with_headers :
  parseFresh (withHeaders (HeadersBool true) defaultOptions)
    ("name,age,city" +:+ NL +:+ "John,25,New York" +:+ NL +:+ "Jane,30,Los Angeles")
  = {| result_headers := Some ["name"; "age"; "city"];
       rows := [RowObject {[ "name" := "John"; "age" := "25"; "city" := "New York" ]};
                RowObject {[ "name" := "Jane"; "age" := "30"; "city" := "Los Angeles" ]}];
       result_errors := [] |}.
Proof. by vm_compute. Qed.

Example test_crlf_and_cr_line_endings :
  rows (parseFresh defaultOptions ("John,25" +:+ str1 CR +:+ NL +:+ "Jane,30"))
  = [RowArray ["John"; "25"]; RowArray ["Jane"; "30"]]
  ∧ rows (parseFresh defaultOptions ("John,25" +:+ str1 CR +:+ "Jane,30"))
    = [RowArray ["John"; "25"]; RowArray ["Jane"; "30"]].
Proof. by vm_compute. Qed.

Example test_custom_escape_character :
  rows (parseFresh
          {| delimiter := ","; quote := "'"; escape := "\";
             skipEmptyLines := true; headersOption := HeadersBool false |}
          "'John \'Johnny\' Doe','25','New York'")
  = [RowArray ["John 'Johnny' Doe"; "25"; "New York"]].
Proof. by vm_compute. Qed.

Example test_error_location :
  result_errors (parseFresh defaultOptions
                   ("John,25,New York" +:+ NL +:+ "Jane" +:+ Q +:+ "Smith,30,Los Angeles"))
  = [mkError 2 5 "Unexpected quote character"].
Proof. by vm_compute. Qed.

Example test_unclosed_quotes :
  result_errors (parseFresh defaultOptions
                   (Q +:+ "John,25,New York" +:+ NL +:+ "Jane,30,Los Angeles"))
  = [mkError 2 1 "Unclosed quoted field"].
Proof. by vm_compute. Qed.

Example test_trailing_comma_and_only_headers :
  rows (parseFresh defaultOptions
          ("John,25,New York," +:+ NL +:+ "Jane,30,Los Angeles,"))
  = [RowArray ["John"; "25"; "New York"; EmptyString];
     RowArray ["Jane"; "30"; "Los Angeles"; EmptyString]]
  ∧ parseFresh (withHeaders (HeadersBool true) defaultOptions) "name,age,city"
    = {| result_headers := Some ["name"; "age"; "city"]; rows := [];
         result_errors := [] |}
  ∧ rows (parseFresh defaultOptions EmptyString) = [].
Proof. by vm_compute. Qed.

Example test_chunked_streaming :
  streamFresh (withHeaders (HeadersBool true) defaultOptions)
    ["name,"; "age,c"; "ity" +:+ NL +:+ "J"; "ohn,2"; "5,New"; " York";
     NL +:+ "Jane"; ",30,L"; "os An"; "geles"]
  = [HeadersNotified ["name"; "age"; "city"];
     RowNotified (RowObject {[ "name" := "John"; "age" := "25";
                               "city" := "New York" ]}) 0;
     RowNotified (RowObject {[ "name" := "Jane"; "age" := "30";
                               "city" := "Los Angeles" ]}) 1;
     EndNotified 2 []].
Proof. by vm_compute. Qed.

(** * Further properties of the engine *)

(** ** What one step does to the counters and the diagnostics *)

Section Steps.
Context {W : Type}.
Variable options : CSVParseOptions.
Variable so : CSVStreamOptions W.
Hypothesis so_wellBehaved : wellBehaved so.

(** [endRow] emits at most one row and never replaces a resolved header. *)
Lemma endRow_progress (p : CSVParser) (w : W) :
  let p' := fst (endRow options so (p, w)) in
  rowIndex p ≤ rowIndex p' ∧ rowIndex p' ≤ S (rowIndex p)
  ∧ (∀ hs, headers p = Some hs → headers p' = Some hs).
Proof.
  destruct (callOnHeaders_wellBehaved so so_wellBehaved) as [g Hg].
  destruct p as [buf ln col q fld row hd errs ri bi].
  unfold endRow. cbn -[callOnHeaders].
  destruct (skipEmptyLines options && _ && _); [cbn; split_and!; auto with lia|].
  destruct (headersOption options) as [[|]|names], hd as [hs|];
    rewrite ?Hg by done; cbn; split_and!; auto with lia; done.
Qed.

(** One character: the buffer stays; the position moves forward, either
    along the line or to the start of the next line; the row index and the
    header only move forward; at most one diagnostic is added, and only for
    a quote character met outside quoted mode; the quote state only changes
    on a quote character. *)
Lemma processCharacter_summary (c : ascii) (p : CSVParser) (w : W) :
  let p' := fst (processCharacter options so c (p, w)) in
  buffer p' = buffer p
  ∧ rowIndex p ≤ rowIndex p'
  ∧ (∀ hs, headers p = Some hs → headers p' = Some hs)
  ∧ (currentLine p' = currentLine p ∧ currentColumn p < currentColumn p'
     ∨ currentLine p' = S (currentLine p) ∧ currentColumn p' = 1)
  ∧ (errors p' = errors p
     ∨ errors p' = errors p ++ [mkError (currentLine p) (currentColumn p)
                                  "Unexpected quote character"]
       ∧ charIs c (quote options) = true ∧ inQuotes p = false)
  ∧ (charIs c (quote options) = false → inQuotes p = false → inQuotes p' = false).
Proof.
  unfold processCharacter.
  destruct (inQuotes p) eqn:Hq.
  - destruct (charIs c (escape options) && _).
    { cbn. split_and!; auto with lia. }
    destruct (charIs c (quote options)); cbn; split_and!; auto with lia.
  - destruct (charIs c (quote options)) eqn:Hcq.
    { destruct (0 <? _); cbn; split_and!; auto with lia; done. }
    destruct (charIs c (delimiter options)).
    { cbn. split_and!; auto with lia. }
    destruct (bool_decide (c = LF) || bool_decide (c = CR)).
    2: { cbn. split_and!; auto with lia. }
    assert (Hany : ∀ p1 : CSVParser,
              buffer p1 = buffer p → rowIndex p1 = rowIndex p →
              headers p1 = headers p → currentLine p1 = currentLine p →
              errors p1 = errors p → inQuotes p1 = false →
              let p' := fst (endRow options so (p1, w)) in
              buffer p' = buffer p
              ∧ rowIndex p ≤ rowIndex p'
              ∧ (∀ hs, headers p = Some hs → headers p' = Some hs)
              ∧ (currentLine p' = currentLine p ∧ currentColumn p < currentColumn p'
                 ∨ currentLine p' = S (currentLine p) ∧ currentColumn p' = 1)
              ∧ (errors p' = errors p
                 ∨ errors p' = errors p ++ [mkError (currentLine p) (currentColumn p)
                                              "Unexpected quote character"]
                   ∧ false = true ∧ false = false)
              ∧ (false = false → false = false → inQuotes p' = false)).
    { intros p1 Hb Hi Hh Hl He Hq1.
      pose proof (endRow_frame options so p1 w so_wellBehaved)
        as (Hb' & _ & Hq' & He' & Hl' & Hc' & _).
      pose proof (endRow_progress p1 w) as (Hi1 & _ & Hh1).
      cbv zeta in *. rewrite Hb', Hq', He', Hl', Hc', Hb, He, Hl, Hq1.
      split_and!; auto with lia.
      intros hs Hhs. apply Hh1. by rewrite Hh. }
    destruct (bool_decide (c = CR) && _); apply Hany; by destruct p.
Qed.
End Steps.

(** ** Invariants of a session *)

Section Invariants.
Context {W : Type}.
Variable options : CSVParseOptions.
Variable so : CSVStreamOptions W.
Hypothesis so_wellBehaved : wellBehaved so.

(** [C] holds of the characters that occur, [P] is kept by every step on
    such a character and does not depend on the buffer. *)
Variable C : ascii → Prop.
Variable P : CSVParser * W → Prop.
Hypothesis P_rebase : ∀ b i p w, P (p, w) → P (rebase b i p, w).
Hypothesis P_step : ∀ c pw, C c → P pw → P (processCharacter options so c pw).

Lemma processLoop_invariant (fuel : nat) (pw : CSVParser * W) :
  (∀ i c, String.get i (buffer (fst pw)) = Some c → C c) →
  P pw → P (processLoop options so fuel pw).
Proof.
  revert pw. induction fuel as [|fuel IH]; intros pw HC HP; [done|].
  cbn [processLoop]. destruct (_ <? _); [|done].
  destruct (String.get _ _) as [c|] eqn:Hc; [|done].
  pose proof (P_step c pw (HC _ _ Hc) HP) as HP'.
  destruct pw as [p w].
  pose proof (processCharacter_summary options so so_wellBehaved c p w)
    as (Hb & _).
  destruct (processCharacter options so c (p, w)) as [p1 w1].
  cbn [fst] in *. apply IH.
  - cbn [fst]. destruct p1. cbn in *. by subst.
  - rewrite <- (rebase_self p1).
    change (setBufferIndex ?i (rebase ?b ?j ?q)) with (rebase b i q).
    by apply P_rebase.
Qed.

Lemma processChunk_invariant (chunk : string) (pw : CSVParser * W) :
  (∀ i c, String.get i (buffer (fst pw) +:+ chunk) = Some c → C c) →
  P pw → P (processChunk options so chunk pw).
Proof.
  intros HC HP. unfold processChunk. destruct pw as [p w].
  pose proof (processLoop_invariant
                (String.length (buffer (setBufferIndex 0
                   (setBuffer (buffer p +:+ chunk) p))))
                (setBufferIndex 0 (setBuffer (buffer p +:+ chunk) p), w)) as H.
  destruct (processLoop options so _ _) as [p2 w2].
  apply (P_rebase EmptyString 0 p2 w2). apply H.
  - exact HC.
  - by apply (P_rebase _ 0 p w).
Qed.

Lemma writes_invariant (chunks : list string) (pw : CSVParser * W) :
  buffer (fst pw) = EmptyString →
  Forall (λ chunk, ∀ i c, String.get i chunk = Some c → C c) chunks →
  P pw →
  P (foldl (λ acc chunk, write options so chunk acc) pw chunks).
Proof.
  revert pw. induction chunks as [|chunk chunks IH]; intros pw Hb HC HP; [done|].
  apply Forall_cons in HC as [Hc HC]. cbn [foldl]. apply IH; [|done|].
  - apply processChunk_buffer.
  - apply processChunk_invariant; [|done]. by rewrite Hb.
Qed.
End Invariants.

(** ** Diagnostics *)

Lemma before_mono (e : CSVError) (ln col ln' col' : nat) :
  before e ln col →
  (ln' = ln ∧ col ≤ col') ∨ ln < ln' →
  before e ln' col'.
Proof. unfold before. lia. Qed.

Lemma increasing_snoc (errs : list CSVError) (e : CSVError) :
  increasing errs →
  Forall (λ e1, before e1 (line e) (column e)) errs →
  increasing (errs ++ [e]).
Proof.
  intros Hinc Hall i j e1 e2 Hij H1 H2.
  destruct (decide (j < length errs)) as [Hj|Hj].
  - rewrite lookup_app_l in H1, H2 by lia. by apply (Hinc i j).
  - assert (j = length errs) as ->.
    { apply lookup_lt_Some in H2. rewrite length_app in H2. cbn in H2. lia. }
    rewrite lookup_app_l in H1 by lia.
    rewrite lookup_app_r, Nat.sub_diag in H2 by lia. injection H2 as <-.
    rewrite Forall_forall in Hall. apply Hall.
    by apply list_elem_of_lookup_2 in H1.
Qed.

Section Diagnostics.
Context {W : Type}.
Variable options : CSVParseOptions.
Variable so : CSVStreamOptions W.
Hypothesis so_wellBehaved : wellBehaved so.

Lemma diagnosticsOK_step (c : ascii) (pw : CSVParser * W) :
  diagnosticsOK (fst pw) →
  diagnosticsOK (fst (processCharacter options so c pw)).
Proof.
  destruct pw as [p w]. intros (Hl & Hc & Hall & Hinc).
  pose proof (processCharacter_summary options so so_wellBehaved c p w)
    as (_ & _ & _ & Hpos & Herr & _).
  cbv zeta in *. cbn [fst] in *.
  destruct (processCharacter options so c (p, w)) as [p' w']. cbn [fst] in *.
  assert (Hfwd : (currentLine p' = currentLine p ∧ currentColumn p ≤ currentColumn p')
                 ∨ currentLine p < currentLine p') by lia.
  assert (Hold : Forall (λ e, message e = "Unexpected quote character"
                   ∧ 1 ≤ line e ∧ 1 ≤ column e
                   ∧ before e (currentLine p') (currentColumn p')) (errors p)).
  { eapply Forall_impl; [exact Hall|]. intros e (? & ? & ? & ?).
    split_and!; try done. by eapply before_mono. }
  split_and!; try lia.
  - destruct Herr as [->|(-> & _)]; [done|].
    apply Forall_app. split; [done|]. apply Forall_singleton.
    split_and!; try done. unfold before. cbn. lia.
  - destruct Herr as [->|(-> & _)]; [done|].
    apply increasing_snoc; [done|].
    eapply Forall_impl; [exact Hall|]. by intros e (_ & _ & _ & ?).
Qed.

Lemma diagnosticsOK_endRow (pw : CSVParser * W) :
  diagnosticsOK (fst pw) → diagnosticsOK (fst (endRow options so pw)).
Proof.
  destruct pw as [p w]. intros (Hl & Hc & Hall & Hinc).
  pose proof (endRow_frame options so p w so_wellBehaved)
    as (_ & _ & _ & He & Hl' & Hc' & _).
  cbv zeta in *. unfold diagnosticsOK. rewrite He, Hl', Hc'.
  split_and!; try lia; [|done].
  eapply Forall_impl; [exact Hall|]. intros e (? & ? & ? & ?).
  split_and!; try done. eapply before_mono; [done|]. cbn [fst]. lia.
Qed.

(** The diagnostics of a session, whatever the chunks: an increasing
    sequence of unexpected quotes, followed by the unclosed quoted field if
    and only if the input ended in quoted mode. *)
Lemma session_diagnostics (chunks : list string) (pw : CSVParser * W) :
  let written := foldl (λ acc chunk, write options so chunk acc)
                   (parseStream pw) chunks in
  let errs := errors (fst (runSession options so chunks pw)) in
  increasing errs
  ∧ Forall (λ e, 1 ≤ line e ∧ 1 ≤ column e) errs
  ∧ ∃ unexpected,
      Forall (λ e, message e = "Unexpected quote character") unexpected
      ∧ errs = unexpected
               ++ (if inQuotes (fst written)
                   then [mkError (currentLine (fst (runSession options so chunks pw)))
                           (currentColumn (fst (runSession options so chunks pw)))
                           "Unclosed quoted field"]
                   else []).
Proof.
  intros written errs. subst errs. unfold runSession, end_. fold written.
  assert (Hw : diagnosticsOK (fst written)).
  { subst written.
    apply (writes_invariant options so so_wellBehaved (λ _, True)
             (λ pw, diagnosticsOK (fst pw))).
    - by intros b i [] w.
    - intros c pw' _. apply diagnosticsOK_step.
    - done.
    - by apply Forall_forall.
    - unfold parseStream, diagnosticsOK. cbn.
      split_and!; try lia; [by apply Forall_nil|]. by intros i j e1 e2 _ ?. }
  rewrite finalize_afterFlush.
  assert (Hf : diagnosticsOK
            (fst (if pending (fst written) then endRow options so written
                  else written))
          ∧ inQuotes (fst (if pending (fst written) then endRow options so written
                           else written)) = inQuotes (fst written)).
  { destruct (pending (fst written)); [|done].
    split; [by apply diagnosticsOK_endRow|].
    destruct written as [p w].
    by pose proof (endRow_frame options so p w so_wellBehaved) as (_ & _ & ? & _). }
  destruct Hf as [(Hl & Hc & Hall & Hinc) Hq].
  destruct (if pending (fst written) then endRow options so written else written)
    as [p1 w1].
  unfold afterFlush. cbn [fst snd] in *. rewrite Hq.
  destruct (inQuotes (fst written)).
  - cbn [errors addError currentLine currentColumn]. split_and!.
    + apply increasing_snoc; [done|]. cbn.
      eapply Forall_impl; [exact Hall|]. by intros e (_ & _ & _ & ?).
    + apply Forall_app. split.
      * eapply Forall_impl; [exact Hall|]. by intros e (_ & ? & ? & _).
      * apply Forall_singleton. cbn. lia.
    + exists (errors p1). split; [|done].
      eapply Forall_impl; [exact Hall|]. by intros e (? & _).
  - split_and!; [done| |].
    + eapply Forall_impl; [exact Hall|]. by intros e (_ & ? & ? & _).
    + exists (errors p1). rewrite app_nil_r. split; [|done].
      eapply Forall_impl; [exact Hall|]. by intros e (? & _).
Qed.
End Diagnostics.

(** What the recording caller is told last. *)
Lemma streamFresh_end (options : CSVParseOptions) (chunks : list string) :
  streamFresh options chunks
  = snd (let written := foldl (λ acc chunk, write options recordingCallbacks chunk acc)
                          (parseStream (newParser, [])) chunks in
         if pending (fst written) then endRow options recordingCallbacks written
         else written)
    ++ [EndNotified
          (rowIndex (fst (runSession options recordingCallbacks chunks (newParser, []))))
          (errors (fst (runSession options recordingCallbacks chunks (newParser, []))))].
Proof.
  unfold streamFresh, runSession, end_. rewrite finalize_afterFlush.
  cbv zeta. by destruct (if pending _ then _ else _).
Qed.

(** X1. The diagnostics of a parse, and those handed to [onEnd] at the end
    of a session fed any chunks, have 1-based lines and columns and come in
    strictly increasing position; each is an unexpected quote, except that
    the last one is the unclosed quoted field exactly when the input ended
    in quoted mode. *)
Theorem diagnostics_in_increasing_position :
  (∀ (options : CSVParseOptions) (input : string),
     let errs := result_errors (parseFresh options input) in
     increasing errs
     ∧ Forall (λ e, 1 ≤ line e ∧ 1 ≤ column e) errs
     ∧ ∃ unexpected ln col,
         Forall (λ e, message e = "Unexpected quote character") unexpected
         ∧ errs = unexpected
                  ++ (if inQuotes (fst (processChunk options parseCallbacks input
                                          (newParser, [])))
                      then [mkError ln col "Unclosed quoted field"] else []))
  ∧ (∀ (options : CSVParseOptions) (chunks : list string),
       ∃ front n errs,
         streamFresh options chunks = front ++ [EndNotified n errs]
         ∧ increasing errs
         ∧ Forall (λ e, 1 ≤ line e ∧ 1 ≤ column e) errs
         ∧ ∃ unexpected ln col,
             Forall (λ e, message e = "Unexpected quote character") unexpected
             ∧ errs = unexpected
                      ++ (if inQuotes
                               (fst (foldl (λ acc chunk,
                                        write options recordingCallbacks chunk acc)
                                      (newParser, []) chunks))
                          then [mkError ln col "Unclosed quoted field"] else [])).
Proof.
  split.
  - intros options input errs. subst errs.
    pose proof (session_diagnostics options parseCallbacks
                  parseCallbacks_wellBehaved [input] (newParser, []))
      as (Hinc & Hpos & unexpected & Hmsg & Herrs).
    unfold parseFresh, parse. change (reset newParser) with newParser.
    unfold runSession, end_, write, parseStream in *. cbn [foldl fst snd] in *.
    change (reset newParser) with newParser in *.
    destruct (finalize options parseCallbacks
                (processChunk options parseCallbacks input (newParser, [])))
      as [p2 rows2]. cbn [fst snd result_errors] in *.
    split_and!; [done..|]. by exists unexpected, (currentLine p2), (currentColumn p2).
  - intros options chunks.
    pose proof (session_diagnostics options recordingCallbacks
                  recordingCallbacks_wellBehaved chunks (newParser, []))
      as (Hinc & Hpos & unexpected & Hmsg & Herrs).
    eexists _, _, _. split; [apply streamFresh_end|].
    split_and!; [done..|].
    eexists unexpected, _, _. split; [done|]. exact Herrs.
Qed.

(** ** Progress *)

Lemma grows_refl (p : CSVParser) : grows p p.
Proof. by split_and!. Qed.

Lemma grows_trans (p q r : CSVParser) : grows p q → grows q r → grows p r.
Proof.
  intros (He & Hi & Hl & Hh) (He' & Hi' & Hl' & Hh').
  split_and!; [by etrans|lia|lia|auto].
Qed.

Lemma grows_rebase (b : string) (i : nat) (p q : CSVParser) :
  grows p q → grows p (rebase b i q).
Proof. by destruct q. Qed.

Section Progress.
Context {W : Type}.
Variable options : CSVParseOptions.
Variable so : CSVStreamOptions W.
Hypothesis so_wellBehaved : wellBehaved so.

Lemma grows_step (c : ascii) (p : CSVParser) (w : W) :
  grows p (fst (processCharacter options so c (p, w))).
Proof.
  pose proof (processCharacter_summary options so so_wellBehaved c p w)
    as (_ & Hi & Hh & Hpos & Herr & _).
  cbv zeta in *. split_and!; [|done|lia|done].
  destruct Herr as [->|(-> & _)]; [done|]. by apply prefix_app_r.
Qed.

Lemma grows_endRow (p : CSVParser) (w : W) :
  grows p (fst (endRow options so (p, w))).
Proof.
  pose proof (endRow_frame options so p w so_wellBehaved)
    as (_ & _ & _ & He & Hl & _).
  pose proof (endRow_progress options so so_wellBehaved p w) as (Hi & _ & Hh).
  cbv zeta in *. split_and!; [by rewrite He|done|lia|done].
Qed.

Lemma grows_processChunk (chunk : string) (p : CSVParser) (w : W) :
  grows p (fst (processChunk options so chunk (p, w))).
Proof.
  apply (processChunk_invariant options so so_wellBehaved (λ _, True)
           (λ pw, grows p (fst pw))); [| |done|apply grows_refl].
  - intros b i q w' Hq. by apply grows_rebase.
  - intros c [q w'] _ Hq. eapply grows_trans; [exact Hq|]. apply grows_step.
Qed.

Lemma grows_finalize (p : CSVParser) (w : W) :
  grows p (fst (finalize options so (p, w))).
Proof.
  rewrite finalize_afterFlush. cbn [fst].
  assert (Hf : grows p (fst (if pending p then endRow options so (p, w)
                             else (p, w)))).
  { destruct (pending p); [apply grows_endRow|apply grows_refl]. }
  destruct (if pending p then endRow options so (p, w) else (p, w)) as [p1 w1].
  unfold afterFlush. cbn [fst snd] in *.
  destruct (inQuotes p1); [|done].
  eapply grows_trans; [exact Hf|].
  split_and!; [by apply prefix_app_r|done..].
Qed.
End Progress.

(** X2. Nothing recorded is ever taken back: across a [write] and across
    [end], the diagnostics already collected stay in front of the list, the
    row index and the line never decrease, and a header once resolved is
    never replaced. *)
Theorem session_only_grows {W : Type} (options : CSVParseOptions)
    (so : CSVStreamOptions W) (chunk : string) (p : CSVParser) (w : W) :
  wellBehaved so →
  grows p (fst (write options so chunk (p, w)))
  ∧ grows p (fst (end_ options so (p, w))).
Proof.
  intros Hwb. split; [by apply grows_processChunk|by apply grows_finalize].
Qed.

Lemma session_only_grows_witness :
  grows afterAB
    (fst (write defaultOptions recordingCallbacks (Q +:+ "c,d" +:+ NL)
            (setBuffer EmptyString (setBufferIndex 0 afterAB), []))).
Proof.
  apply (session_only_grows defaultOptions recordingCallbacks
           (Q +:+ "c,d" +:+ NL)
           (setBuffer EmptyString (setBufferIndex 0 afterAB)) []
           recordingCallbacks_wellBehaved).
Defined.

(** ** Input without a quote character *)

Lemma session_quoteFree {W : Type} (options : CSVParseOptions)
    (so : CSVStreamOptions W) (chunks : list string) (pw : CSVParser * W) :
  wellBehaved so →
  Forall (quoteFree options) chunks →
  errors (fst (runSession options so chunks pw)) = []
  ∧ inQuotes (fst (runSession options so chunks pw)) = false.
Proof.
  intros Hwb Hfree. unfold runSession, end_.
  assert (Hw : inQuotes (fst (foldl (λ acc chunk, write options so chunk acc)
                                (parseStream pw) chunks)) = false
               ∧ errors (fst (foldl (λ acc chunk, write options so chunk acc)
                                (parseStream pw) chunks)) = []).
  { apply (writes_invariant options so Hwb
             (λ c, charIs c (quote options) = false)
             (λ pw, inQuotes (fst pw) = false ∧ errors (fst pw) = [])).
    - by intros b i [] w.
    - intros c [p w] Hc [Hq He].
      pose proof (processCharacter_summary options so Hwb c p w)
        as (_ & _ & _ & _ & Herr & Hkeep).
      cbv zeta in *. cbn [fst] in *. split; [by apply Hkeep|].
      destruct Herr as [->|(_ & Hc' & _)]; [done|congruence].
    - done.
    - exact Hfree.
    - done. }
  destruct Hw as [Hq He]. rewrite finalize_afterFlush.
  destruct (foldl _ _ chunks) as [p w]. cbn [fst snd] in *.
  assert (Hf : inQuotes (fst (if pending p then endRow options so (p, w) else (p, w)))
               = false
               ∧ errors (fst (if pending p then endRow options so (p, w) else (p, w)))
                 = []).
  { destruct (pending p); [|done].
    pose proof (endRow_frame options so p w Hwb) as (_ & _ & Hq' & He' & _).
    cbv zeta in *. by rewrite Hq', He'. }
  destruct (if pending p then endRow options so (p, w) else (p, w)) as [p1 w1].
  unfold afterFlush. cbn [fst snd] in *. destruct Hf as [Hq1 He1].
  by rewrite Hq1.
Qed.

Lemma quoteFree_cons (options : CSVParseOptions) (c : ascii) (s : string) :
  charIs c (quote options) = false → quoteFree options s →
  quoteFree options (String c s).
Proof. intros Hc Hs [|i] c' Hi; cbn in Hi; [by injection Hi as <-|by eapply Hs]. Qed.

Lemma quoteFree_empty (options : CSVParseOptions) : quoteFree options EmptyString.
Proof. by intros i c Hi. Qed.

(** X3. An input that holds no quote character never enters quoted mode and
    yields no diagnostic, in one [parse] or written in any chunks. *)
Theorem no_quote_no_diagnostic :
  (∀ (options : CSVParseOptions) (input : string),
     quoteFree options input →
     result_errors (parseFresh options input) = [])
  ∧ (∀ (W : Type) (options : CSVParseOptions) (so : CSVStreamOptions W)
       (chunks : list string) (pw : CSVParser * W),
       wellBehaved so →
       Forall (quoteFree options) chunks →
       errors (fst (runSession options so chunks pw)) = []
       ∧ inQuotes (fst (runSession options so chunks pw)) = false).
Proof.
  split.
  - intros options input Hfree.
    pose proof (session_quoteFree options parseCallbacks [input] (newParser, [])
                  parseCallbacks_wellBehaved) as [He _].
    { by apply Forall_singleton. }
    unfold parseFresh, parse. change (reset newParser) with newParser.
    unfold runSession, end_, write, parseStream in He. cbn [foldl fst snd] in He.
    change (reset newParser) with newParser in He.
    by destruct (finalize options parseCallbacks
                   (processChunk options parseCallbacks input (newParser, []))).
  - intros W options so chunks pw. apply session_quoteFree.
Qed.

Lemma no_quote_no_diagnostic_witness :
  result_errors (parseFresh defaultOptions "a,b") = []
  ∧ errors (fst (runSession defaultOptions recordingCallbacks
                   ["a,b"; "c,d"] (newParser, []))) = [].
Proof.
  destruct no_quote_no_diagnostic as [Hparse Hsession].
  split.
  - apply Hparse.
    repeat (apply quoteFree_cons; [reflexivity|]). apply quoteFree_empty.
  - apply (Hsession _ defaultOptions recordingCallbacks ["a,b"; "c,d"]
             (newParser, []) recordingCallbacks_wellBehaved).
    apply Forall_cons. split; [|apply Forall_cons; split; [|by apply Forall_nil]].
    + repeat (apply quoteFree_cons; [reflexivity|]). apply quoteFree_empty.
    + repeat (apply quoteFree_cons; [reflexivity|]). apply quoteFree_empty.
Defined.

(** ** The order of the notifications *)

Lemma told_row (hdr : option (list string)) (rs : list Row) (r : Row) :
  told hdr rs ++ [RowNotified r (length rs)] = told hdr (rs ++ [r]).
Proof.
  unfold told. rewrite imap_app, <- app_assoc. cbn. by rewrite Nat.add_0_r.
Qed.

Lemma logInv_endRow (options : CSVParseOptions)
    (pw : CSVParser * list Notification) :
  logInv options pw → logInv options (endRow options recordingCallbacks pw).
Proof.
  destruct pw as [p log]. intros (rs & Hlog & Hi & Hnone). cbn [fst snd] in *.
  destruct p as [buf ln col q fld row hd errs ri bi]. cbn in *. subst log ri.
  unfold endRow. cbn -[told].
  destruct (skipEmptyLines options && _ && _).
  { by exists rs. }
  destruct (headersOption options) as [[|]|names] eqn:Ho, hd as [hs|];
    cbn -[told].
  - exists (rs ++ [RowObject (toObject hs (row ++ [fld]))]).
    rewrite told_row, length_app. cbn. split_and!; [done|lia|done].
  - destruct Hnone as [?| ->]; [done..|]. by exists [].
  - exists (rs ++ [RowObject (toObject hs (row ++ [fld]))]).
    rewrite told_row, length_app. cbn. split_and!; [done|lia|done].
  - exists (rs ++ [RowArray (row ++ [fld])]).
    rewrite told_row, length_app. cbn. split_and!; [done|lia|auto].
  - exists (rs ++ [RowObject (toObject hs (row ++ [fld]))]).
    rewrite told_row, length_app. cbn. split_and!; [done|lia|done].
  - destruct Hnone as [?| ->]; [done..|].
    by exists [RowObject (toObject names (row ++ [fld]))].
Qed.

Lemma logInv_step (options : CSVParseOptions) (c : ascii)
    (pw : CSVParser * list Notification) :
  logInv options pw →
  logInv options (processCharacter options recordingCallbacks c pw).
Proof.
  destruct pw as [p log]. intros HI.
  assert (Hsame : ∀ f : CSVParser → CSVParser,
            (∀ q, rowIndex (f q) = rowIndex q ∧ headers (f q) = headers q) →
            logInv options (f p, log)).
  { intros f Hf. destruct HI as (rs & Hlog & Hi & Hnone).
    destruct (Hf p) as [Hfi Hfh]. exists rs. cbn [fst snd] in *.
    by rewrite Hfi, Hfh. }
  unfold processCharacter.
  destruct (inQuotes p).
  - destruct (charIs c (escape options) && _);
      [apply (Hsame (λ q, setBufferIndex _ (setField _ _ q))); by intros []|].
    destruct (charIs c (quote options)).
    + apply (Hsame (λ q, setInQuotes _ _ q)); by intros [].
    + apply (Hsame (λ q, setField _ _ q)); by intros [].
  - destruct (charIs c (quote options)).
    { destruct (0 <? _).
      - apply (Hsame (λ q, setField (currentField (addError _ q) +:+ _)
                             (S (currentColumn (addError _ q)))
                             (addError _ q))); by intros [].
      - apply (Hsame (λ q, setInQuotes _ _ q)); by intros []. }
    destruct (charIs c (delimiter options)).
    { apply (Hsame (λ q, setField _ _ (pushField q))); by intros []. }
    destruct (bool_decide (c = LF) || bool_decide (c = CR)).
    2: { apply (Hsame (λ q, setField _ _ q)); by intros []. }
    apply logInv_endRow.
    destruct (bool_decide (c = CR) && _).
    + apply (Hsame (λ q, setBufferIndex _ q)); by intros [].
    + done.
Qed.

Lemma streamFresh_shape (options : CSVParseOptions) (chunks : list string) :
  ∃ hdr rs errs,
    streamFresh options chunks = told hdr rs ++ [EndNotified (length rs) errs].
Proof.
  pose (written := foldl (λ acc chunk, write options recordingCallbacks chunk acc)
                     (parseStream (newParser, [])) chunks).
  assert (Hw : logInv options written).
  { apply (writes_invariant options recordingCallbacks
             recordingCallbacks_wellBehaved (λ _, True) (logInv options)).
    - intros b i [] w (rs & ? & ? & ?). by exists rs.
    - intros c pw _. apply logInv_step.
    - done.
    - by apply Forall_forall.
    - exists []. by split_and!; [..|right]. }
  assert (Hf : logInv options
            (if pending (fst written)
             then endRow options recordingCallbacks written else written)).
  { destruct (pending (fst written)); [by apply logInv_endRow|done]. }
  unfold streamFresh, runSession, end_. fold written.
  rewrite finalize_afterFlush.
  destruct (if pending (fst written)
            then endRow options recordingCallbacks written else written)
    as [p1 log1].
  destruct Hf as (rs & Hlog & Hi & _). cbn [fst snd] in *.
  exists (headers p1), rs. unfold afterFlush. cbn [fst snd onEnd recordingCallbacks].
  destruct (inQuotes p1); eexists; cbn; by rewrite Hlog, Hi.
Qed.

(** X4. Whatever the chunks, a caller is notified in this order: the header
    at most once and before any row; the rows, carrying the indices 0, 1,
    2, ...; and the end exactly once, last, with the number of rows that
    were notified. *)
Theorem notifications_in_order (options : CSVParseOptions) (chunks : list string) :
  ∃ hdr rs errs,
    streamFresh options chunks = told hdr rs ++ [EndNotified (length rs) errs].
Proof. apply streamFresh_shape. Qed.

(** *** The whole log, across safe boundaries *)

Lemma notifiedRows_told (hdr : option (list string)) (rs : list Row) :
  notifiedRows (told hdr rs) = numbered rs.
Proof.
  unfold told, notifiedRows, numbered. rewrite omap_app.
  assert (omap (λ n, match n with RowNotified r i => Some (r, i) | _ => None end)
            (HeadersNotified <$> option_list hdr) = []) as -> by (by destruct hdr).
  cbn [app]. induction rs as [|r rs IH] using rev_ind; [done|].
  rewrite !imap_app, omap_app, IH. cbn. done.
Qed.

Lemma notifiedHeaders_told (hdr : option (list string)) (rs : list Row) :
  notifiedHeaders (told hdr rs) = option_list hdr.
Proof.
  unfold told, notifiedHeaders. rewrite omap_app.
  assert (omap (λ n, match n with HeadersNotified hs => Some hs | _ => None end)
            (imap (λ i r, RowNotified r i) rs) = []) as ->.
  { induction rs as [|r rs IH] using rev_ind; [done|].
    rewrite imap_app, omap_app, IH. done. }
  rewrite app_nil_r. by destruct hdr.
Qed.

Lemma notifiedEnds_told (hdr : option (list string)) (rs : list Row) :
  notifiedEnds (told hdr rs) = [].
Proof.
  unfold told, notifiedEnds. rewrite omap_app.
  assert (omap (λ n, match n with EndNotified k e => Some (k, e) | _ => None end)
            (imap (λ i r, RowNotified r i) rs) = []) as ->.
  { induction rs as [|r rs IH] using rev_ind; [done|].
    rewrite imap_app, omap_app, IH. done. }
  rewrite app_nil_r. by destruct hdr.
Qed.

Lemma numbered_inj (rs rs' : list Row) : numbered rs = numbered rs' → rs = rs'.
Proof.
  intros H. apply (f_equal (fmap fst)) in H. unfold numbered in H.
  rewrite !fmap_imap in H.
  assert (Hid : ∀ l : list Row, imap (λ n, fst ∘ (λ r, (r, n))) l = l).
  { intros l. induction l as [|r l IH] using rev_ind; [done|].
    rewrite imap_app, IH. done. }
  by rewrite !Hid in H.
Qed.

(** Across safe boundaries the recording caller is told exactly what the
    one-shot [parse] of the whole text returns. *)
Lemma streamFresh_log (options : CSVParseOptions) (chunks : list string) :
  safeChunks options EmptyString chunks = true →
  streamFresh options chunks
  = told (result_headers (parseFresh options (joined chunks)))
         (rows (parseFresh options (joined chunks)))
    ++ [EndNotified (length (rows (parseFresh options (joined chunks))))
          (result_errors (parseFresh options (joined chunks)))].
Proof.
  intros Hsafe.
  destruct (streamFresh_shape options chunks) as (hdr & rs & errs & Hlog).
  destruct (stream_agrees_with_parse_across_safe_boundaries options chunks Hsafe)
    as (Hr & Hh & He).
  rewrite Hlog in Hr, Hh, He.
  unfold notifiedRows, notifiedHeaders, notifiedEnds in Hr, Hh, He.
  rewrite omap_app in Hr. rewrite omap_app in Hh. rewrite omap_app in He.
  fold (notifiedRows (told hdr rs)) in Hr.
  fold (notifiedHeaders (told hdr rs)) in Hh.
  fold (notifiedEnds (told hdr rs)) in He.
  rewrite notifiedRows_told in Hr. rewrite notifiedHeaders_told in Hh.
  rewrite notifiedEnds_told in He. cbn in Hr, Hh, He.
  rewrite app_nil_r in Hr, Hh.
  apply numbered_inj in Hr. injection He as Hn He.
  rewrite Hlog. subst rs errs.
  assert (hdr = result_headers (parseFresh options (joined chunks))) as ->; [|done].
  destruct hdr, (result_headers (parseFresh options (joined chunks)));
    cbn in Hh; congruence.
Qed.

(** ** Empty input and empty chunks *)

Lemma writes_buffer {W} (options : CSVParseOptions) (so : CSVStreamOptions W)
    (chunks : list string) (pw : CSVParser * W) :
  let written := foldl (λ acc chunk, write options so chunk acc)
                   (parseStream pw) chunks in
  buffer (fst written) = EmptyString ∧ bufferIndex (fst written) = 0.
Proof.
  induction chunks as [|chunk chunks _] using rev_ind; [done|].
  cbv zeta. rewrite foldl_app. cbn [foldl]. apply processChunk_buffer.
Qed.

(** X5. The empty input yields nothing: [parse] of the empty string returns
    no header, no row and no diagnostic under every configuration; and an
    empty chunk written anywhere in a session changes nothing of what the
    session does. *)
Theorem empty_input_and_empty_chunks :
  (∀ options : CSVParseOptions,
     parseFresh options EmptyString
     = {| result_headers := None; rows := []; result_errors := [] |})
  ∧ (∀ (W : Type) (options : CSVParseOptions) (so : CSVStreamOptions W)
       (before after : list string) (pw : CSVParser * W),
       runSession options so (before ++ [EmptyString] ++ after) pw
       = runSession options so (before ++ after) pw).
Proof.
  split; [done|].
  intros W options so front back pw. unfold runSession. f_equal.
  rewrite !foldl_app. cbn [foldl]. f_equal.
  pose proof (writes_buffer options so front pw) as [Hb Hi]. cbv zeta in *.
  destruct (foldl _ (parseStream pw) front) as [p w].
  by apply processChunk_empty.
Qed.

(** ** The loop of [processChunk] ends *)

Lemma lookahead_Some (options : CSVParseOptions) (c : ascii) (next : option ascii) :
  escapeLookahead options c next = true ∨ crlfLookahead c next = true →
  is_Some next.
Proof.
  unfold escapeLookahead, crlfLookahead. destruct next; [by eexists|].
  cbn. rewrite !andb_false_r. by intros [|].
Qed.

(** The index never runs past the end of the buffer. *)
Lemma processLoop_index_le {W} (options : CSVParseOptions)
    (so : CSVStreamOptions W) (fuel : nat) (pw : CSVParser * W) :
  wellBehaved so →
  bufferIndex (fst pw) ≤ String.length (buffer (fst pw)) →
  bufferIndex (fst (processLoop options so fuel pw))
  ≤ String.length (buffer (fst (processLoop options so fuel pw))).
Proof.
  intros Hwb. revert pw. induction fuel as [|fuel IH]; intros pw Hle; [done|].
  destruct (String.get (bufferIndex (fst pw)) (buffer (fst pw))) as [c|] eqn:Hc.
  - rewrite (processLoop_step _ _ _ _ _ Hc). apply IH.
    destruct pw as [p w].
    pose proof (processCharacter_index options so Hwb c p w) as [Hb Hi].
    cbn [fst bufferIndex buffer setBufferIndex] in *.
    apply get_Some_lt in Hc.
    destruct (processCharacter options so c (p, w)) as [p1 w1].
    cbn [fst] in *.
    replace (bufferIndex (setBufferIndex (S (bufferIndex p1)) p1))
      with (S (bufferIndex p1)) by (by destruct p1).
    replace (buffer (setBufferIndex (S (bufferIndex p1)) p1))
      with (buffer p1) by (by destruct p1).
    rewrite Hb. destruct Hi as [->|[-> Hlook]]; [lia|].
    apply lookahead_Some in Hlook as [next Hnext].
    apply get_Some_lt in Hnext. lia.
  - apply get_None_ge in Hc. by rewrite processLoop_done.
Qed.

(** X6. The loop of [processChunk] comes to its end by itself: started at
    the beginning of the buffer, [buffer.length] iterations always suffice
    (more fuel changes nothing), the buffer is the same at the exit and the
    index stands exactly at its end, every character having been read once
    or skipped as the second character of a pair. *)
Theorem processChunk_loop_ends {W : Type} (options : CSVParseOptions)
    (so : CSVStreamOptions W) (p : CSVParser) (w : W) (more : nat) :
  wellBehaved so →
  bufferIndex p = 0 →
  let p' := fst (processLoop options so (String.length (buffer p)) (p, w)) in
  processLoop options so (String.length (buffer p) + more) (p, w)
  = processLoop options so (String.length (buffer p)) (p, w)
  ∧ buffer p' = buffer p
  ∧ bufferIndex p' = String.length (buffer p).
Proof.
  intros Hwb Hi p'. subst p'.
  pose proof (processLoop_exit options so Hwb (String.length (buffer p)) (p, w))
    as [Hb Hlen]; [cbn; lia|].
  pose proof (processLoop_index_le options so (String.length (buffer p)) (p, w) Hwb)
    as Hle.
  cbn [fst] in *. split_and!.
  - apply processLoop_fuel; [done|cbn; lia..].
  - done.
  - rewrite Hb in *. lia.
Qed.

Lemma processChunk_loop_ends_witness :
  bufferIndex (fst (processLoop defaultOptions parseCallbacks
                      (String.length escapedQuoteInput)
                      (setBuffer escapedQuoteInput newParser, [])))
  = String.length escapedQuoteInput.
Proof.
  apply (processChunk_loop_ends defaultOptions parseCallbacks
           (setBuffer escapedQuoteInput newParser) [] 0
           parseCallbacks_wellBehaved eq_refl).
Defined.

(** ** Chunk invariance where it holds *)

(** X7. A session fed chunks none of whose boundaries separates an escape
    character from a quote character, or a carriage return from a line
    feed, tells its caller exactly what the one-shot [parse] of the whole
    text returns: the header, then the rows with their positions, then the
    end with the number of rows and the diagnostics. *)
Theorem chunk_invariance_across_safe_boundaries (options : CSVParseOptions)
    (chunks : list string) :
  safeChunks options EmptyString chunks = true →
  streamFresh options chunks
  = told (result_headers (parseFresh options (joined chunks)))
         (rows (parseFresh options (joined chunks)))
    ++ [EndNotified (length (rows (parseFresh options (joined chunks))))
          (result_errors (parseFresh options (joined chunks)))].
Proof. apply streamFresh_log. Qed.

Lemma chunk_invariance_across_safe_boundaries_witness :
  streamFresh defaultOptions ["A,"; "B" +:+ NL +:+ "C"; ",D"]
  = told None [RowArray ["A"; "B"]; RowArray ["C"; "D"]]
    ++ [EndNotified 2 []].
Proof.
  pose proof (chunk_invariance_across_safe_boundaries defaultOptions
                ["A,"; "B" +:+ NL +:+ "C"; ",D"] eq_refl) as H.
  rewrite H. by vm_compute.
Defined.

(** ** The unified API on a string *)

Lemma noCallbacks_wellBehaved {W : Type} : wellBehaved (@noCallbacks W).
Proof. by intros f Hf. Qed.

(** Without callbacks, a session leaves the caller's world alone. *)
Lemma noCallbacks_world {W : Type} (options : CSVParseOptions)
    (chunks : list string) (p : CSVParser) (w : W) :
  snd (runSession options noCallbacks chunks (p, w)) = w.
Proof.
  unfold runSession, end_.
  assert (Hend : ∀ q, snd (endRow options (@noCallbacks W) (q, w)) = w).
  { intros q. unfold endRow. cbn.
    destruct (skipEmptyLines options && _ && _); [done|].
    by destruct (headersOption options) as [[|]|names], (headers q). }
  assert (Hw : snd (foldl (λ acc chunk, write options noCallbacks chunk acc)
                      (parseStream (p, w)) chunks) = w).
  { apply (writes_invariant options noCallbacks noCallbacks_wellBehaved
             (λ _, True) (λ pw, snd pw = w)); try done.
    - intros c [q w'] _ Hq. cbn [snd] in Hq. subst w'.
      unfold processCharacter.
      destruct (inQuotes q).
      + destruct (charIs c (escape options) && _); [done|].
        by destruct (charIs c (quote options)).
      + destruct (charIs c (quote options)); [by destruct (0 <? _)|].
        destruct (charIs c (delimiter options)); [done|].
        destruct (bool_decide (c = LF) || bool_decide (c = CR)); [|done].
        destruct (bool_decide (c = CR) && _); apply Hend.
    - by apply Forall_forall. }
  rewrite finalize_afterFlush.
  destruct (foldl _ _ chunks) as [q w']. cbn [fst snd] in *. subst w'.
  unfold afterFlush. cbn [onEnd noCallbacks snd].
  destruct (pending q); [apply Hend|done].
Qed.

(** X8. [parseCSV] on a string does the same parse in both modes.  Without
    [stream] and callbacks it returns the result of [parse] under the
    constructor's defaults.  With callbacks it returns nothing and tells
    the caller exactly that result: the header, the rows with their
    positions, the end with the number of rows and the diagnostics;
    [parseCSVStream] does the same.  With [stream: true] and no callback
    the text is parsed and nothing comes out of it. *)
Theorem parseCSV_modes_agree (po : CSVParseOptionsGiven) (input : string)
    (strm : option bool) (onErr : bool) :
  let r := parseFresh (CSVParser_constructor po) input in
  let log := told (result_headers r) (rows r)
             ++ [EndNotified (length (rows r)) (result_errors r)] in
  parseCSV input {| parseOptions := po; stream := None;
                    callbacks := noCallbacks; onErrorGiven := false |} tt
  = (Some r, tt)
  ∧ parseCSV input {| parseOptions := po; stream := strm;
                      callbacks := recordingCallbacks; onErrorGiven := onErr |} []
    = (None, log)
  ∧ parseCSVStream input recordingCallbacks onErr po [] = log
  ∧ parseCSV input {| parseOptions := po; stream := Some true;
                      callbacks := @noCallbacks (list Notification);
                      onErrorGiven := false |} log
    = (None, log).
Proof.
  intros r log.
  assert (Hlog : streamFresh (CSVParser_constructor po) [input] = log).
  { rewrite streamFresh_log by done. subst log r. cbn [joined foldr].
    by rewrite string_app_empty_r. }
  assert (Hrec : ∀ strm', parseCSV input
            {| parseOptions := po; stream := strm';
               callbacks := recordingCallbacks; onErrorGiven := onErr |} []
            = (None, log)).
  { intros strm'. unfold parseCSV.
    assert (useStreaming {| parseOptions := po; stream := strm';
              callbacks := recordingCallbacks; onErrorGiven := onErr |} = true) as ->.
    { unfold useStreaming. cbn. by rewrite orb_true_r. }
    by rewrite <- Hlog. }
  split_and!.
  - done.
  - apply Hrec.
  - unfold parseCSVStream. by rewrite Hrec.
  - unfold parseCSV. cbn [useStreaming stream callbacks parseOptions].
    assert (useStreaming {| parseOptions := po; stream := Some true;
              callbacks := @noCallbacks (list Notification);
              onErrorGiven := false |} = true) as -> by done.
    cbn [parseOptions callbacks]. f_equal.
    apply (noCallbacks_world (CSVParser_constructor po) [input] newParser log).
Qed.

(** ** The loop as a scan of the text *)

Section Scan.
Context {W : Type}.
Variable options : CSVParseOptions.
Variable so : CSVStreamOptions W.
Hypothesis so_wellBehaved : wellBehaved so.

Lemma run_scan (cs pre : string) (p : CSVParser) (w : W) :
  run options so (rebase (pre +:+ cs) (String.length pre) p, w)
  = (rebase (pre +:+ cs) (String.length (pre +:+ cs))
       (fst (scan options so false cs (p, w))),
     snd (scan options so false cs (p, w)))
  ∧ (cs ≠ EmptyString →
     run options so (rebase (pre +:+ cs) (S (String.length pre)) p, w)
     = (rebase (pre +:+ cs) (String.length (pre +:+ cs))
          (fst (scan options so true cs (p, w))),
        snd (scan options so true cs (p, w)))).
Proof.
  revert pre p w. induction cs as [|c rest IH]; intros pre p w.
  { split; [|done]. rewrite string_app_empty_r.
    by rewrite run_done by (cbn; lia). }
  assert (HB : pre +:+ String c rest = (pre +:+ str1 c) +:+ rest).
  { by rewrite string_app_assoc. }
  assert (Hlen : String.length (pre +:+ str1 c) = S (String.length pre)).
  { rewrite string_length_app. cbn. lia. }
  split.
  2: { intros _. cbn [scan]. rewrite HB, <- Hlen. apply IH. }
  assert (Hc : String.get (String.length pre) (pre +:+ String c rest) = Some c).
  { rewrite <- (Nat.add_0_r (String.length pre)). by rewrite string_get_app_r. }
  rewrite (run_step options so so_wellBehaved _ _ p w c Hc).
  assert (Hnext : String.get (S (String.length pre)) (pre +:+ String c rest)
                  = String.get 1 (String c rest)).
  { rewrite HB, <- Hlen, <- (Nat.add_0_r (String.length (pre +:+ str1 c))).
    by rewrite string_get_app_r. }
  rewrite (processCharacter_rebase options so so_wellBehaved c p w
             (String c rest) (pre +:+ String c rest) 0 (String.length pre))
    by (by rewrite Hnext).
  pose proof (processCharacter_index options so so_wellBehaved c
                (rebase (String c rest) 0 p) w) as [Hb Hidx].
  cbn [buffer bufferIndex rebase setBufferIndex setBuffer] in Hb, Hidx.
  cbn [scan fst snd].
  destruct (processCharacter options so c (rebase (String c rest) 0 p, w))
    as [p1 w1].
  cbn [fst snd] in *. rewrite Nat.sub_0_r.
  change (bufferIndex (rebase ?b ?i ?q)) with i.
  rewrite rebase_rebase.
  destruct Hidx as [Hi|[Hi Hlook]]; rewrite Hi.
  - rewrite Nat.add_0_r. cbn [Nat.eqb]. rewrite HB, <- Hlen.
    destruct (IH (pre +:+ str1 c) (rebase EmptyString 0 p1) w1) as [IH1 _].
    by rewrite rebase_rebase in IH1.
  - replace (S (String.length pre + 1)) with (S (S (String.length pre))) by lia.
    cbn [Nat.eqb]. rewrite HB, <- Hlen.
    destruct (IH (pre +:+ str1 c) (rebase EmptyString 0 p1) w1) as [_ IH2].
    rewrite rebase_rebase in IH2. apply IH2.
    apply lookahead_Some in Hlook as [next Hnext']. cbn in Hnext'.
    by destruct rest.
Qed.

(** [processChunk], between two calls, is the scan of the chunk. *)
Lemma processChunk_scan (chunk : string) (p : CSVParser) (w : W) :
  buffer p = EmptyString →
  processChunk options so chunk (p, w)
  = (rebase EmptyString 0 (fst (scan options so false chunk (p, w))),
     snd (scan options so false chunk (p, w))).
Proof.
  intros Hb. rewrite (processChunk_run options so chunk p w Hb).
  destruct (run_scan chunk EmptyString p w) as [Hrun _].
  rewrite string_app_empty_l in Hrun. cbn [String.length] in Hrun.
  by rewrite Hrun.
Qed.
End Scan.

(** ** Reading back a rendered table *)

Lemma charIs_str1 (c c' : ascii) : charIs c (str1 c') = bool_decide (c = c').
Proof.
  unfold charIs, str1. apply bool_decide_ext. split; [by intros [= ->]|by intros ->].
Qed.

Section ReadBack.
Context {W : Type}.
Variable options : CSVParseOptions.
Variable so : CSVStreamOptions W.
Variables q d : ascii.
Hypothesis Hstd : standard options q d.

Lemma scan_plain (t rest : string) (ln col : nat) (fld : string)
    (row : list string) (hd : option (list string)) (errs : list CSVError)
    (ri : nat) (w : W) :
  plainText options t = true →
  ∃ col',
    scan options so false (t +:+ rest) (between ln col false fld row hd errs ri, w)
    = scan options so false rest
        (between ln col' false (fld +:+ t) row hd errs ri, w).
Proof.
  revert col fld. induction t as [|c t IH]; intros col fld Ht.
  { exists col. by rewrite string_app_empty_l, string_app_empty_r. }
  cbn [plainText] in Ht. apply andb_prop in Ht as [Hc Ht].
  unfold plainChar in Hc.
  apply andb_prop in Hc as [Hc Hcr]. apply andb_prop in Hc as [Hc Hlf].
  apply andb_prop in Hc as [Hcq Hcd].
  apply negb_true_iff in Hcq, Hcd, Hlf, Hcr.
  destruct (IH (S col) (fld +:+ str1 c) Ht) as [col' IH'].
  exists col'. rewrite string_app_cons. cbn [scan].
  unfold processCharacter. cbn [fst snd inQuotes rebase setBufferIndex setBuffer between].
  rewrite Hcq, Hcd, Hlf, Hcr. cbn [orb].
  cbn [fst snd bufferIndex setField Nat.eqb].
  rewrite string_app_assoc in IH'. cbn in IH'. exact IH'.
Qed.

Lemma scan_quoted_body (t rest : string) (ln col : nat) (fld : string)
    (row : list string) (hd : option (list string)) (errs : list CSVError)
    (ri : nat) (w : W) :
  startsWith q rest = false →
  ∃ col',
    scan options so false (doubled q t +:+ String q rest)
      (between ln col true fld row hd errs ri, w)
    = scan options so false rest
        (between ln col' false (fld +:+ t) row hd errs ri, w).
Proof.
  destruct Hstd as (Hq & He & Hd & Hqd & _).
  intros Hrest. revert col fld. induction t as [|c t IH]; intros col fld.
  - exists (S col). cbn [doubled]. rewrite string_app_empty_l, string_app_empty_r.
    cbn [scan]. unfold processCharacter.
    cbn [fst snd inQuotes rebase setBufferIndex setBuffer between buffer bufferIndex].
    rewrite He, Hq, charIs_str1, bool_decide_eq_true_2 by done.
    assert (nextIs (String.get 1 (String q rest)) (str1 q) = false) as ->.
    { cbn. destruct rest as [|c' rest']; [done|]. cbn in *.
      by rewrite charIs_str1. }
    cbn [andb]. done.
  - cbn [doubled]. case_bool_decide as Hcq.
    + subst c. destruct (IH (col + 2) (fld +:+ str1 q)) as [col' IH'].
      exists col'. rewrite !string_app_cons. cbn [scan]. unfold processCharacter.
      cbn [fst snd inQuotes rebase setBufferIndex setBuffer between buffer bufferIndex].
      rewrite He, Hq, charIs_str1, bool_decide_eq_true_2 by done.
      assert (nextIs (String.get 1 (String q (String q (doubled q t +:+ String q rest))))
                (str1 q) = true) as ->.
      { cbn. by rewrite charIs_str1, bool_decide_eq_true_2. }
      cbn [andb fst snd bufferIndex setBufferIndex setField Nat.eqb].
      rewrite string_app_assoc in IH'. cbn in IH'. exact IH'.
    + destruct (IH (S col) (fld +:+ str1 c)) as [col' IH'].
      exists col'. rewrite !string_app_cons. cbn [scan]. unfold processCharacter.
      cbn [fst snd inQuotes rebase setBufferIndex setBuffer between buffer bufferIndex].
      rewrite He, Hq, charIs_str1, bool_decide_eq_false_2 by done.
      cbn [andb fst snd bufferIndex setBufferIndex setField Nat.eqb].
      rewrite string_app_assoc in IH'. cbn in IH'. exact IH'.
Qed.

Lemma scan_cell (c : Cell) (rest : string) (ln col : nat)
    (row : list string) (hd : option (list string)) (errs : list CSVError)
    (ri : nat) (w : W) :
  cellOK options c = true →
  startsWith q rest = false →
  ∃ col',
    scan options so false (renderCell q c +:+ rest)
      (between ln col false EmptyString row hd errs ri, w)
    = scan options so false rest
        (between ln col' false (cellText c) row hd errs ri, w).
Proof.
  intros Hok Hrest. destruct c as [t|t]; cbn [renderCell cellText cellOK] in *.
  - destruct (scan_plain t rest ln col EmptyString row hd errs ri w Hok)
      as [col' H].
    exists col'. by rewrite string_app_empty_l in H.
  - destruct (scan_quoted_body t rest ln (S col) EmptyString row hd errs ri w Hrest)
      as [col' H].
    exists col'. rewrite string_app_empty_l in H.
    rewrite string_app_cons, string_app_assoc.
    change (str1 q +:+ rest) with (String q rest).
    destruct Hstd as (Hq & He & Hd & Hqd & _).
    cbn [scan]. unfold processCharacter.
    cbn [fst snd inQuotes rebase setBufferIndex setBuffer between currentField].
    rewrite Hq, charIs_str1, bool_decide_eq_true_2 by done.
    cbn [String.length Nat.ltb Nat.leb fst snd bufferIndex setInQuotes Nat.eqb].
    exact H.
Qed.

Lemma scan_delimiter (rest : string) (ln col : nat) (fld : string)
    (row : list string) (hd : option (list string)) (errs : list CSVError)
    (ri : nat) (w : W) :
  scan options so false (String d rest)
    (between ln col false fld row hd errs ri, w)
  = scan options so false rest
      (between ln (S col) false EmptyString (row ++ [fld]) hd errs ri, w).
Proof.
  destruct Hstd as (Hq & He & Hd & Hqd & _).
  cbn [scan]. unfold processCharacter.
  cbn [fst snd inQuotes rebase setBufferIndex setBuffer between].
  rewrite Hq, Hd, !charIs_str1, bool_decide_eq_false_2,
    bool_decide_eq_true_2 by done.
  done.
Qed.

Lemma scan_row (cells : list Cell) (rest : string) (ln col : nat)
    (row : list string) (hd : option (list string)) (errs : list CSVError)
    (ri : nat) (w : W) :
  cells ≠ [] →
  Forall (λ c, cellOK options c = true) cells →
  startsWith q rest = false →
  ∃ col' fld' row',
    scan options so false (renderRow q d cells +:+ rest)
      (between ln col false EmptyString row hd errs ri, w)
    = scan options so false rest
        (between ln col' false fld' row' hd errs ri, w)
    ∧ row' ++ [fld'] = row ++ (cellText <$> cells).
Proof.
  intros Hne Hok Hrest. revert col row.
  induction cells as [|c cells IH]; intros col row; [done|].
  apply Forall_cons in Hok as [Hc Hok].
  destruct cells as [|c2 cells].
  - cbn [renderRow].
    destruct (scan_cell c rest ln col row hd errs ri w Hc Hrest) as [col' H].
    by exists col', (cellText c), row.
  - change (renderRow q d (c :: c2 :: cells))
      with (renderCell q c +:+ String d (renderRow q d (c2 :: cells))).
    rewrite string_app_assoc, string_app_cons.
    destruct (scan_cell c (String d (renderRow q d (c2 :: cells) +:+ rest))
                ln col row hd errs ri w Hc) as [col1 H1].
    { cbn. apply bool_decide_eq_false_2.
      destruct Hstd as (_ & _ & _ & Hqd & _). congruence. }
    rewrite H1, scan_delimiter.
    destruct (IH ltac:(done) Hok (S col1) (row ++ [cellText c]))
      as (col' & fld' & row' & H2 & Hrow).
    exists col', fld', row'. split; [done|].
    rewrite Hrow. by rewrite <- app_assoc.
Qed.

(** Outside quotes a rendered row never starts with a line feed. *)
Lemma renderRow_not_LF (cells : list Cell) (rest : string) :
  Forall (λ c, cellOK options c = true) cells →
  startsWith LF rest = false →
  startsWith LF (renderRow q d cells +:+ rest) = false.
Proof.
  destruct Hstd as (_ & _ & _ & _ & HqLF & _ & HdLF & _).
  intros Hok Hrest. destruct cells as [|c cells]; [done|].
  apply Forall_cons in Hok as [Hc _].
  assert (Hcell : ∀ X, startsWith LF X = false →
            startsWith LF (renderCell q c +:+ X) = false).
  { intros X HX. destruct c as [[|a t]|t]; cbn [renderCell].
    - by rewrite string_app_empty_l.
    - rewrite string_app_cons. cbn. cbn in Hc.
      apply andb_prop in Hc as [Ha _]. unfold plainChar in Ha.
      apply andb_prop in Ha as [Ha _]. apply andb_prop in Ha as [_ Ha].
      by apply negb_true_iff in Ha.
    - rewrite string_app_cons. cbn. by apply bool_decide_eq_false_2. }
  destruct cells as [|c2 cells]; [by apply Hcell|].
  change (renderRow q d (c :: c2 :: cells))
    with (renderCell q c +:+ String d (renderRow q d (c2 :: cells))).
  rewrite string_app_assoc. apply Hcell. rewrite string_app_cons. cbn.
  by apply bool_decide_eq_false_2.
Qed.
End ReadBack.

(** Without header, a surviving row is emitted as the array of its fields. *)
Lemma endRow_plain (options : CSVParseOptions) (p : CSVParser) (rs : list Row) :
  headersOption options = HeadersBool false →
  survives options (currentRow p ++ [currentField p]) →
  headers p = None →
  endRow options parseCallbacks (p, rs)
  = (resetRow (setRowIndex (S (rowIndex p)) (pushField p)),
     rs ++ [RowArray (currentRow p ++ [currentField p])]).
Proof.
  intros Hh Hsv Hhd. unfold endRow. cbn [pushField currentRow].
  rewrite (survives_test options _ Hsv), Hh.
  unfold emitRow, makeRow. cbn. by rewrite Hhd.
Qed.

Section ReadBackParse.

Variable options : CSVParseOptions.
Variables q d : ascii.
Hypothesis Hstd : standard options q d.
Hypothesis Hh : headersOption options = HeadersBool false.

(** Each of the three line endings completes the row. *)
Lemma scan_ending (e : LineEnding) (rest : string) (ln col : nat)
    (fld : string) (row : list string) (errs : list CSVError) (ri : nat)
    (rs : list Row) :
  survives options (row ++ [fld]) →
  (e = EndCR → startsWith LF rest = false) →
  scan options parseCallbacks false (renderEnding e +:+ rest)
    (between ln col false fld row None errs ri, rs)
  = scan options parseCallbacks false rest
      (between (S ln) 1 false EmptyString [] None errs (S ri),
       rs ++ [RowArray (row ++ [fld])]).
Proof.
  intros Hsv HCR.
  destruct Hstd as (Hq & He & Hd & Hqd & HqLF & HqCR & HdLF & HdCR).
  destruct e; cbn [renderEnding].
  - change (str1 LF +:+ rest) with (String LF rest).
    cbn [scan]. unfold processCharacter.
    cbn [fst snd inQuotes rebase setBufferIndex setBuffer between].
    rewrite Hq, Hd, !charIs_str1.
    rewrite (bool_decide_eq_false_2 (LF = q)) by done.
    rewrite (bool_decide_eq_false_2 (LF = d)) by done.
    rewrite (bool_decide_eq_true_2 (LF = LF)) by done.
    rewrite (bool_decide_eq_false_2 (LF = CR)) by done.
    cbn [orb andb]. rewrite endRow_plain by done.
    done.
  - change (String CR (str1 LF) +:+ rest) with (String CR (String LF rest)).
    cbn [scan]. unfold processCharacter.
    cbn [fst snd inQuotes rebase setBufferIndex setBuffer between bufferIndex buffer String.get].
    rewrite Hq, Hd, !charIs_str1.
    rewrite (bool_decide_eq_false_2 (CR = q)) by done.
    rewrite (bool_decide_eq_false_2 (CR = d)) by done.
    rewrite (bool_decide_eq_true_2 (CR = CR)) by done.
    rewrite (bool_decide_eq_false_2 (CR = LF)) by done.
    cbn [orb andb nextIs]. rewrite charIs_str1, (bool_decide_eq_true_2 (LF = LF)) by done.
    rewrite endRow_plain by done.
    done.
  - change (str1 CR +:+ rest) with (String CR rest).
    cbn [scan]. unfold processCharacter.
    cbn [fst snd inQuotes rebase setBufferIndex setBuffer between bufferIndex buffer String.get].
    rewrite Hq, Hd, !charIs_str1.
    rewrite (bool_decide_eq_false_2 (CR = q)) by done.
    rewrite (bool_decide_eq_false_2 (CR = d)) by done.
    rewrite (bool_decide_eq_true_2 (CR = CR)) by done.
    rewrite (bool_decide_eq_false_2 (CR = LF)) by done.
    cbn [orb andb].
    assert (Hn : nextIs (String.get 0 rest) (str1 LF) = false).
    { specialize (HCR eq_refl). destruct rest as [|c r]; [done|].
      cbn [String.get nextIs startsWith] in *. by rewrite charIs_str1. }
    rewrite Hn. rewrite endRow_plain by done.
    done.
Qed.

Lemma renderEnding_not_quote (e : LineEnding) (rest : string) :
  startsWith q (renderEnding e +:+ rest) = false.
Proof.
  destruct Hstd as (_ & _ & _ & _ & HqLF & HqCR & _).
  destruct e; cbn; apply bool_decide_eq_false_2; congruence.
Qed.

Lemma renderTable_not_LF (table : list (list Cell)) (rest : string) :
  Forall (rowOK options) table →
  startsWith LF rest = false →
  startsWith LF (renderTable q d EndCR table +:+ rest) = false.
Proof.
  intros Hok Hrest. destruct table as [|r table].
  - by rewrite string_app_empty_l.
  - apply Forall_cons in Hok as [(_ & Hr & _) _].
    cbn [renderTable]. rewrite string_app_assoc.
    by apply (renderRow_not_LF options q d Hstd).
Qed.

Lemma scan_table (e : LineEnding) (table : list (list Cell)) (rest : string)
    (ln : nat) (errs : list CSVError) (ri : nat) (rs : list Row) :
  Forall (rowOK options) table →
  (e = EndCR → startsWith LF rest = false) →
  scan options parseCallbacks false (renderTable q d e table +:+ rest)
    (between ln 1 false EmptyString [] None errs ri, rs)
  = scan options parseCallbacks false rest
      (between (ln + length table) 1 false EmptyString [] None errs
         (ri + length table),
       rs ++ (RowArray <$> fieldsOf table)).
Proof.
  intros Hok Hrest. revert ln ri rs.
  induction table as [|r table IH]; intros ln ri rs.
  - rewrite string_app_empty_l. cbn [length fieldsOf fmap list_fmap].
    by rewrite !Nat.add_0_r, app_nil_r.
  - apply Forall_cons in Hok as [(Hne & Hr & Hsv) Hok].
    cbn [renderTable]. rewrite !string_app_assoc.
    destruct (scan_row options parseCallbacks q d Hstd r
                (renderEnding e +:+ renderTable q d e table +:+ rest)
                ln 1 [] None errs ri rs Hne Hr
                (renderEnding_not_quote e _))
      as (col' & fld' & row' & Hscan & Hrow).
    rewrite Hscan, scan_ending.
    + rewrite (IH Hok), Hrow. cbn [length fieldsOf fmap list_fmap app].
      rewrite !Nat.add_succ_r, <- app_assoc. reflexivity.
    + by rewrite Hrow.
    + intros ->. apply renderTable_not_LF; [done|by apply Hrest].
Qed.

Lemma parseFresh_table (e : LineEnding) (table : list (list Cell)) :
  Forall (rowOK options) table →
  parseFresh options (renderTable q d e table)
  = {| result_headers := None; rows := RowArray <$> fieldsOf table;
       result_errors := [] |}.
Proof.
  intros Hok. unfold parseFresh, parse.
  rewrite (processChunk_scan options parseCallbacks
             parseCallbacks_wellBehaved) by done.
  change (reset newParser) with (between 1 1 false EmptyString [] None [] 0).
  rewrite <- (string_app_empty_r (renderTable q d e table)).
  rewrite (scan_table e table EmptyString 1 [] 0 [] Hok) by done.
  done.
Qed.

Lemma parseFresh_table_open (e : LineEnding) (table : list (list Cell))
    (last : list Cell) :
  Forall (rowOK options) table →
  rowOK options last →
  cellText <$> last ≠ [EmptyString] →
  parseFresh options (renderTable q d e table +:+ renderRow q d last)
  = {| result_headers := None;
       rows := RowArray <$> fieldsOf (table ++ [last]);
       result_errors := [] |}.
Proof.
  intros Hok (Hne & Hr & Hsv) Hlast. unfold parseFresh, parse.
  rewrite (processChunk_scan options parseCallbacks
             parseCallbacks_wellBehaved) by done.
  change (reset newParser) with (between 1 1 false EmptyString [] None [] 0).
  rewrite (scan_table e table _ 1 [] 0 [] Hok).
  2:{ intros _. rewrite <- (string_app_empty_r (renderRow q d last)).
      by apply (renderRow_not_LF options q d Hstd). }
  rewrite <- (string_app_empty_r (renderRow q d last)).
  destruct (scan_row options parseCallbacks q d Hstd last EmptyString
              (1 + length table) 1 [] None [] (0 + length table)
              ([] ++ (RowArray <$> fieldsOf table)) Hne Hr eq_refl)
    as (col' & fld' & row' & Hscan & Hrow).
  rewrite Hscan. cbn [scan fst snd]. unfold finalize.
  cbn [fst snd rebase between setBufferIndex setBuffer currentField currentRow].
  assert (Hp : truthy fld' || (0 <? length row') = true).
  { by destruct fld', row'. }
  rewrite Hp. rewrite endRow_plain.
  2:done. 2:by cbn; rewrite Hrow. 2:done.
  cbn. unfold fieldsOf. rewrite Hrow, !fmap_app. done.
Qed.
End ReadBackParse.

(** ** From a parse without header to every [headers] option *)

Lemma withHeaders_self (options : CSVParseOptions) :
  withHeaders (headersOption options) options = options.
Proof. by destruct options. Qed.

Lemma plainText_withHeaders (h : HeadersOption) (options : CSVParseOptions)
    (t : string) :
  plainText (withHeaders h options) t = plainText options t.
Proof. induction t as [|c t IH]; [done|]. cbn. by rewrite IH. Qed.

Lemma rowOK_withHeaders (h : HeadersOption) (options : CSVParseOptions)
    (r : list Cell) :
  rowOK options r → rowOK (withHeaders h options) r.
Proof.
  intros (Hne & Hr & Hsv). split_and!; [done| |done].
  eapply Forall_impl; [exact Hr|]. intros [t|t]; cbn; [|done].
  by rewrite plainText_withHeaders.
Qed.

Lemma RowArray_fmap_inj (l l' : list (list string)) :
  RowArray <$> l = RowArray <$> l' → l = l'.
Proof.
  revert l'. induction l as [|r l IH]; intros [|r' l']; cbn; try done.
  intros [= -> ?]. f_equal. by apply IH.
Qed.

(** A result established under [headers: false] gives the result under
    every [headers] option. *)
Lemma parseFresh_any_headers (options : CSVParseOptions) (input : string)
    (raw : list (list string)) (errs : list CSVError) :
  parseFresh (withHeaders (HeadersBool false) options) input
  = {| result_headers := None; rows := RowArray <$> raw;
       result_errors := errs |} →
  parseFresh options input
  = {| result_headers := (headerView (headersOption options) raw).1.1;
       rows := (headerView (headersOption options) raw).1.2;
       result_errors := errs |}.
Proof.
  intros Hplain.
  destruct (parse_headerView options input) as (raw' & errs' & Hall).
  rewrite (Hall (HeadersBool false)) in Hplain. cbn in Hplain.
  injection Hplain as Hraw ->. apply RowArray_fmap_inj in Hraw as ->.
  rewrite <- (withHeaders_self options) at 1. apply Hall.
Qed.

Lemma rowsOK_withHeaders (h : HeadersOption) (options : CSVParseOptions)
    (table : list (list Cell)) :
  Forall (rowOK options) table → Forall (rowOK (withHeaders h options)) table.
Proof. intros H. eapply Forall_impl; [exact H|]. apply rowOK_withHeaders. Qed.


Lemma standard_default : standard defaultOptions DQUOTE ",".
Proof. by repeat split. Qed.

Lemma sampleTable_OK : Forall (rowOK defaultOptions) sampleTable.
Proof.
  repeat (apply Forall_cons; split; [|]); [..|by apply Forall_nil].
  all: split_and!; [done|by repeat constructor|by right].
Qed.


(** X11. The terminator of the last line is optional: a table whose last
    row is written without line ending parses to the same result as the
    table with that row terminated, provided the last row is not a lone
    empty field (an empty quoted field alone on the last line leaves
    nothing for [finalize] to flush). *)
Theorem final_terminator_optional (options : CSVParseOptions) (q d : ascii)
    (e : LineEnding) (table : list (list Cell)) (last : list Cell) :
  standard options q d →
  Forall (rowOK options) table →
  rowOK options last →
  cellText <$> last ≠ [EmptyString] →
  parseFresh options (renderTable q d e table +:+ renderRow q d last)
  = parseFresh options (renderTable q d e (table ++ [last])).
Proof.
  intros Hstd Hok Hlast Hne.
  rewrite (parseFresh_any_headers options _ (fieldsOf (table ++ [last])) []).
  - symmetry. apply parseFresh_any_headers.
    apply (parseFresh_table _ q d); [done|done|].
    apply rowsOK_withHeaders, Forall_app. split; [done|].
    apply Forall_cons. split; [done|apply Forall_nil; done].
  - apply (parseFresh_table_open _ q d); [done|done| | |done].
    + by apply rowsOK_withHeaders.
    + by apply rowOK_withHeaders.
Qed.

Lemma final_terminator_optional_witness :
  parseFresh defaultOptions
    (renderTable DQUOTE "," EndLF sampleTable
     +:+ renderRow DQUOTE "," [Quoted ""; Plain "end"])
  = parseFresh defaultOptions
      (renderTable DQUOTE "," EndLF
         (sampleTable ++ [[Quoted ""; Plain "end"]])).
Proof.
  apply (final_terminator_optional defaultOptions DQUOTE "," EndLF
           sampleTable [Quoted ""; Plain "end"] standard_default
           sampleTable_OK).
  - split_and!; [done|by repeat constructor|by right].
  - done.
Defined.

(** ** The shape of the rows *)

Lemma objectUpTo_dom (hs cr : list string) (n : nat) :
  dom (objectUpTo hs cr n) = list_to_set (ownNames (take n hs)).
Proof.
  induction n as [|n IH]; [done|].
  rewrite objectUpTo_S. destruct (hs !! n) as [k|] eqn:Hk.
  - rewrite (take_S_r _ _ _ Hk). unfold ownNames in *.
    rewrite filter_app, list_to_set_app_L, <- IH.
    unfold assignProperty. cbn [filter list_filter].
    destruct (decide (k = PROTO)) as [Hp|Hp].
    + rewrite (bool_decide_eq_true_2 _ Hp), decide_False by (by intros H; apply H).
      cbn [list_to_set]. by rewrite (right_id_L ∅ (∪)).
    + rewrite (bool_decide_eq_false_2 _ Hp), decide_True by done.
      rewrite dom_insert_L. cbn [list_to_set].
      rewrite (right_id_L ∅ (∪)). apply (comm_L (∪)).
  - apply lookup_ge_None in Hk. rewrite IH.
    by rewrite !take_ge by lia.
Qed.

Lemma toObject_dom (hs cr : list string) :
  dom (toObject hs cr) = list_to_set (ownNames hs).
Proof.
  change (toObject hs cr) with (objectUpTo hs cr (length hs)).
  by rewrite objectUpTo_dom, firstn_all.
Qed.

Section Shape.
Variable options : CSVParseOptions.
Hypothesis Hh : headersOption options = HeadersBool false.

Lemma properState_endRow (pw : CSVParser * list Row) :
  properState options pw → properState options (endRow options parseCallbacks pw).
Proof.
  destruct pw as [p rs]. intros (Hhd & raw & Hrs & Hraw).
  cbn [fst snd] in *. subst rs. unfold endRow. cbn [pushField currentRow].
  destruct (skipEmptyLines options && _ && _) eqn:Ht.
  { split; [done|]. by exists raw. }
  rewrite Hh. unfold emitRow, makeRow. cbn. rewrite Hhd. split; [done|].
  exists (raw ++ [currentRow p ++ [currentField p]]).
  split; [by rewrite fmap_app|].
  apply Forall_app. split; [done|].
  apply Forall_cons. split; [|by apply Forall_nil].
  split; [by destruct (currentRow p)|].
  intros Hs Hempty. rewrite Hs in Ht. cbn [andb] in Ht.
  apply emptyLine_test in Hempty. congruence.
Qed.

Lemma properState_step (c : ascii) (pw : CSVParser * list Row) :
  properState options pw →
  properState options (processCharacter options parseCallbacks c pw).
Proof.
  destruct pw as [p rs]. intros HP. unfold processCharacter.
  repeat match goal with
         | |- context [if ?b then _ else _] => destruct b
         end;
    first [exact HP | apply properState_endRow; exact HP].
Qed.

Lemma properState_parse (input : string) :
  ∃ raw,
    parseFresh options input
    = {| result_headers := None; rows := RowArray <$> raw;
         result_errors := result_errors (parseFresh options input) |}
    ∧ Forall (properFields options) raw.
Proof.
  unfold parseFresh, parse.
  pose proof (processChunk_invariant options parseCallbacks
                parseCallbacks_wellBehaved (λ _, True) (properState options)
                (λ b i p w H, H) (λ c pw _, properState_step c pw)
                input (reset newParser, []) (λ _ _ _, I)) as Hchunk.
  destruct (processChunk options parseCallbacks input (reset newParser, []))
    as [p1 rs1].
  assert (H1 : properState options (p1, rs1)).
  { apply Hchunk. split; [done|]. by exists []. }
  clear Hchunk. rewrite finalize_afterFlush.
  assert (H2 : properState options
                 (if pending (fst (p1, rs1))
                  then endRow options parseCallbacks (p1, rs1) else (p1, rs1))).
  { destruct (pending _); [by apply properState_endRow|done]. }
  destruct (if pending _ then _ else _) as [p2 rs2].
  destruct H2 as (Hhd & raw & Hrs & Hraw). cbn [fst snd] in *.
  exists raw. split; [|done]. unfold afterFlush. cbn [fst snd onEnd parseCallbacks].
  subst rs2. destruct (inQuotes p2); cbn; by rewrite Hhd.
Qed.
End Shape.

(** X13. The shape of a result, for every input and every configuration.
    With [headers: false] there is no header and every row is an array
    with at least one field, and never the lone empty field when
    [skipEmptyLines] is set.  With any other [headers] option every row is
    a name-keyed object whose keys are exactly the names of the header
    returned other than [__proto__], a name that is never a key. *)
Theorem result_shape (options : CSVParseOptions) (input : string) :
  let r := parseFresh options input in
  match headersOption options with
  | HeadersBool false =>
      result_headers r = None
      ∧ Forall (λ row, ∃ fields, row = RowArray fields
                                 ∧ properFields options fields) (rows r)
  | _ =>
      Forall (λ row, ∃ hs m, result_headers r = Some hs ∧ row = RowObject m
                             ∧ dom m = list_to_set (ownNames hs)
                             ∧ m !! PROTO = None) (rows r)
  end.
Proof.
  intros r.
  destruct (properState_parse (withHeaders (HeadersBool false) options)
              eq_refl input) as (raw & Hplain & Hraw).
  apply parseFresh_any_headers in Hplain. subst r. rewrite Hplain.
  cbn [result_headers rows].
  destruct (headersOption options) as [[|]|names]; cbn [headerView fst snd].
  - destruct raw as [|first rest]; cbn [fst snd]; [by apply Forall_nil|].
    apply Forall_fmap, Forall_forall. intros fields _.
    exists first, (toObject first fields). rewrite toObject_dom.
    split_and!; try done. apply (objectUpTo_proto first fields (length first)).
  - split; [done|]. apply Forall_fmap. eapply Forall_impl; [exact Hraw|].
    intros fields Hf. by exists fields.
  - destruct raw as [|first rest]; cbn [fst snd]; [by apply Forall_nil|].
    apply Forall_fmap, Forall_forall. intros fields _.
    exists names, (toObject names fields). rewrite toObject_dom.
    split_and!; try done. apply (objectUpTo_proto names fields (length names)).
Qed.

(** X12. The [headers] option changes the presentation only.  For every
    input, the rows that [parse] returns under [headers: false] determine
    the result under every other [headers] option: with [headers: true] the
    first of them is the header and the others are keyed by it, with an
    explicit header every one of them is keyed by the names given; the
    diagnostics are the same under every option. *)
Theorem headers_option_changes_presentation_only (options : CSVParseOptions)
    (input : string) :
  let plain := parseFresh (withHeaders (HeadersBool false) options) input in
  ∃ raw : list (list string),
    result_headers plain = None
    ∧ rows plain = RowArray <$> raw
    ∧ ∀ h : HeadersOption,
        parseFresh (withHeaders h options) input
        = {| result_headers := (headerView h raw).1.1;
             rows := (headerView h raw).1.2;
             result_errors := result_errors plain |}.
Proof.
  intros plain.
  destruct (parse_headerView options input) as (raw & errs & Hall).
  exists raw. subst plain. rewrite (Hall (HeadersBool false)).
  by split_and!.
Qed.



(** ** Empty lines *)

Lemma keep_snoc (raw : list (list string)) (r : list string) :
  keep (raw ++ [r]) = if decide (r = [EmptyString]) then keep raw else keep raw ++ [r].
Proof.
  unfold keep. rewrite filter_app. cbn [filter list_filter].
  destruct (decide (r = [EmptyString])) as [->|Hr].
  - rewrite decide_False by (by intros H; apply H). cbn. by rewrite app_nil_r.
  - by rewrite decide_True.
Qed.

Section SkipView.
Variable o : CSVParseOptions.

Let kept := withHeaders (HeadersBool false) (withSkipEmptyLines false o).
Let skipped := withHeaders (HeadersBool false) (withSkipEmptyLines true o).

Lemma skipRel_endRow (A B : CSVParser * list Row) :
  skipRel A B →
  skipRel (endRow kept parseCallbacks A) (endRow skipped parseCallbacks B).
Proof.
  destruct A as [pA wA]. intros (raw & Hw & Hh & Hi & ->).
  destruct pA as [buf ln col q fld row hd errs ri bi].
  simpl in Hw, Hh, Hi. subst wA hd ri.
  unfold endRow, kept, skipped. simpl.
  exists (raw ++ [row ++ [fld]]).
  unfold emitRow, makeRow. simpl.
  rewrite keep_snoc, fmap_app, length_app. simpl.
  destruct ((length (row ++ [fld]) =? 1) && _) eqn:Ht.
  - apply emptyLine_test in Ht. rewrite decide_True by done.
    split_and!; try done.
    all: unfold resetRow, setRowIndex, pushField; simpl; repeat f_equal; lia.
  - rewrite decide_False.
    2:{ intros He. apply emptyLine_test in He. congruence. }
    rewrite fmap_app, length_app. simpl.
    split_and!; try done.
    all: unfold resetRow, setRowIndex, pushField; simpl; repeat f_equal; lia.
Qed.

Lemma skipRel_processCharacter (c : ascii) (A B : CSVParser * list Row) :
  skipRel A B →
  skipRel (processCharacter kept parseCallbacks c A)
          (processCharacter skipped parseCallbacks c B).
Proof.
  destruct A as [pA wA]. intros (raw & Hw & Hh & Hi & ->).
  destruct pA as [buf ln col q fld row hd errs ri bi].
  simpl in Hw, Hh, Hi. subst wA hd ri.
  unfold processCharacter, kept, skipped. cbn -[endRow].
  destruct q.
  - destruct (charIs c (escape o) && _); [by exists raw|].
    destruct (charIs c (quote o)); by exists raw.
  - destruct (charIs c (quote o)).
    { case_match; by exists raw. }
    destruct (charIs c (delimiter o)); [by exists raw|].
    destruct (_ || _); [|by exists raw].
    destruct (_ && _); apply skipRel_endRow; by exists raw.
Qed.

Lemma skipRel_processLoop (fuel : nat) (A B : CSVParser * list Row) :
  skipRel A B →
  skipRel (processLoop kept parseCallbacks fuel A)
          (processLoop skipped parseCallbacks fuel B).
Proof.
  revert A B. induction fuel as [|fuel IH]; intros A B HR; [done|].
  cbn [processLoop].
  assert (Hbuf : buffer (fst B) = buffer (fst A)
                 ∧ bufferIndex (fst B) = bufferIndex (fst A)).
  { destruct HR as (raw & _ & _ & _ & ->). by destruct A as [[] ?]. }
  destruct Hbuf as [-> ->].
  destruct (_ <? _); [|done].
  destruct (String.get _ _) as [c|]; [|done].
  pose proof (skipRel_processCharacter c A B HR) as HR'.
  destruct (processCharacter kept parseCallbacks c A) as [pA' wA'].
  destruct (processCharacter skipped parseCallbacks c B) as [pB' wB'].
  apply IH.
  destruct HR' as (raw & Hw & Hh & Hi & HB). exists raw.
  injection HB as -> ->. destruct pA'. simpl in *. by subst.
Qed.

Lemma skipRel_processChunk (chunk : string) (A B : CSVParser * list Row) :
  skipRel A B →
  skipRel (processChunk kept parseCallbacks chunk A)
          (processChunk skipped parseCallbacks chunk B).
Proof.
  intros HR. unfold processChunk.
  destruct A as [pA wA], B as [pB wB].
  assert (HR0 : skipRel
            (setBufferIndex 0 (setBuffer (buffer pA +:+ chunk) pA), wA)
            (setBufferIndex 0 (setBuffer (buffer pB +:+ chunk) pB), wB)).
  { destruct HR as (raw & Hw & Hh & Hi & HB). exists raw.
    injection HB as -> ->. destruct pA. simpl in *. by subst. }
  assert (Hlen : String.length (buffer (setBufferIndex 0
                    (setBuffer (buffer pB +:+ chunk) pB)))
                 = String.length (buffer (setBufferIndex 0
                    (setBuffer (buffer pA +:+ chunk) pA)))).
  { destruct HR as (raw & _ & _ & _ & HB). injection HB as -> _.
    by destruct pA. }
  rewrite Hlen.
  pose proof (skipRel_processLoop
                (String.length (buffer (setBufferIndex 0
                    (setBuffer (buffer pA +:+ chunk) pA)))) _ _ HR0) as HR1.
  destruct (processLoop kept _ _ _) as [pA1 wA1].
  destruct (processLoop skipped _ _ _) as [pB1 wB1].
  destruct HR1 as (raw & Hw & Hh & Hi & HB). exists raw.
  injection HB as -> ->. destruct pA1. simpl in *. by subst.
Qed.

Lemma skipRel_finalize (A B : CSVParser * list Row) :
  skipRel A B →
  skipRel (finalize kept parseCallbacks A) (finalize skipped parseCallbacks B).
Proof.
  intros HR. rewrite !finalize_afterFlush.
  assert (Hpend : pending (fst B) = pending (fst A)).
  { destruct HR as (raw & _ & _ & _ & ->). by destruct A as [[] ?]. }
  rewrite Hpend.
  assert (HR1 : skipRel
            (if pending (fst A) then endRow kept parseCallbacks A else A)
            (if pending (fst A) then endRow skipped parseCallbacks B else B)).
  { destruct (pending (fst A)); [exact (skipRel_endRow A B HR)|exact HR]. }
  destruct (if pending (fst A) then endRow kept _ _ else _) as [pA1 wA1].
  destruct (if pending (fst A) then endRow skipped _ _ else _) as [pB1 wB1].
  destruct HR1 as (raw & Hw & Hh & Hi & HB). exists raw.
  injection HB as -> ->. unfold afterFlush.
  destruct pA1 as [buf ln col q fld row hd errs ri bi]. simpl in *. subst.
  by destruct q.
Qed.

Lemma parse_skipView (input : string) :
  ∃ raw : list (list string),
    parseFresh kept input
    = {| result_headers := None; rows := RowArray <$> raw;
         result_errors := result_errors (parseFresh kept input) |}
    ∧ parseFresh skipped input
      = {| result_headers := None; rows := RowArray <$> keep raw;
           result_errors := result_errors (parseFresh kept input) |}.
Proof.
  assert (HR : skipRel
            (finalize kept parseCallbacks
               (processChunk kept parseCallbacks input (newParser, [])))
            (finalize skipped parseCallbacks
               (processChunk skipped parseCallbacks input (newParser, [])))).
  { apply skipRel_finalize, skipRel_processChunk. exists []. by split_and!. }
  unfold parseFresh, parse. change (reset newParser) with newParser.
  destruct (finalize kept _ _) as [pA wA].
  destruct HR as (raw & Hw & Hh & Hi & ->). exists raw.
  cbn [fst snd] in *. subst wA. rewrite Hh. split; [done|].
  destruct pA. cbn in *. by subst.
Qed.
End SkipView.

(** X14. [skipEmptyLines] removes the empty lines and changes nothing else.
    For every input, the rows returned with empty lines skipped are the rows
    returned with empty lines kept (under [headers: false]) without the
    rows that are a lone empty field, presented as the [headers] option
    asks; the diagnostics, positions included, are the same. *)
Theorem skipEmptyLines_filters_empty_lines (o : CSVParseOptions)
    (input : string) (h : HeadersOption) :
  let all := parseFresh (withHeaders (HeadersBool false)
                           (withSkipEmptyLines false o)) input in
  ∃ raw : list (list string),
    rows all = RowArray <$> raw
    ∧ parseFresh (withHeaders h (withSkipEmptyLines true o)) input
      = {| result_headers := (headerView h (keep raw)).1.1;
           rows := (headerView h (keep raw)).1.2;
           result_errors := result_errors all |}.
Proof.
  intros all. destruct (parse_skipView o input) as (raw & Hall & Hskip).
  exists raw. subst all. split; [by rewrite Hall|].
  apply (parseFresh_any_headers (withHeaders h (withSkipEmptyLines true o))
           input (keep raw)).
  exact Hskip.
Qed.

